(** * Cartograph refactoring scripts: a shallow embedding and its properties

    The repository holds three one-shot Python scripts that transplant the
    canvas code of [src/UI.cpp] into a panel of its own:

    - [clean_ui.py] finds four function bodies by brace counting and deletes
      them from the line list;
    - [extract_canvas.py] slices three line ranges out of the file and adapts
      them textually;
    - [update_refs.py] qualifies the names of the moved state variables.

    Lines and file contents are Python [str] values; they are modelled as
    lists of 7-bit characters ([list ascii]), so the word class of the
    regular expressions is the ASCII one.  Line indices are the non-negative
    Python integers produced by [enumerate] and [range], modelled in [nat];
    the brace balance can go below zero and lives in [Z]. *)

From Stdlib Require Import Ascii String.
From Stdlib Require Import List ZArith Lia Bool Arith.
From Stdlib Require Import Permutation Sorted.
Import ListNotations.

Set Implicit Arguments.

(* ================================================================= *)
(** ** Text primitives shared by the three scripts *)

Module Text.

Definition text := list ascii.

(** A string literal as a text value. *)
Definition lit (s : string) : text := list_ascii_of_string s.

Definition newline : ascii := "010"%char.
Definition dquote : ascii := "034"%char.
Definition dot : ascii := "."%char.

(** [s.startswith(p)] *)
Fixpoint prefixb (p s : text) : bool :=
  match p, s with
  | [], _ => true
  | _ :: _, [] => false
  | a :: p', b :: s' => Ascii.eqb a b && prefixb p' s'
  end.

(** [needle in hay] *)
Fixpoint contains (needle hay : text) : bool :=
  prefixb needle hay ||
  match hay with
  | [] => false
  | _ :: hay' => contains needle hay'
  end.

(** [s.count(c)] for a one-character [c]. *)
Fixpoint count_char (c : ascii) (s : text) : nat :=
  match s with
  | [] => 0
  | x :: s' => (if Ascii.eqb c x then 1 else 0) + count_char c s'
  end.

(** [s.replace(old, new)].  The scan runs left to right over [s]; [skip]
    counts the characters of a match that are still to be passed over. *)
Fixpoint replace_go (old new : text) (skip : nat) (s : text) : text :=
  match s with
  | [] => []
  | c :: s' =>
      match skip with
      | S k => replace_go old new k s'
      | O =>
          if prefixb old s
          then new ++ replace_go old new (length old - 1) s'
          else c :: replace_go old new 0 s'
      end
  end.

Definition replace (old new s : text) : text :=
  match old with
  | [] => new ++ flat_map (fun c => c :: new) s
  | _ :: _ => replace_go old new 0 s
  end.

(** The character [c] does not occur in [s]. *)
Definition absent (c : ascii) (s : text) : bool :=
  negb (existsb (Ascii.eqb c) s).

(** [a] is [b] with some of its elements left out: nothing is added,
    altered or moved. *)
Inductive subseq (A : Type) : list A -> list A -> Prop :=
| subseq_nil : subseq [] []
| subseq_skip x a b : subseq a b -> subseq a (x :: b)
| subseq_keep x a b : subseq a b -> subseq (x :: a) (x :: b).

(** [str.isspace] on the ASCII range: TAB, LF, VT, FF, CR, FS, GS, RS, US
    and the space. *)
Definition is_space (c : ascii) : bool :=
  let n := nat_of_ascii c in
  ((9 <=? n) && (n <=? 13)) || ((28 <=? n) && (n <=? 32)).

(** [s.lstrip()] *)
Fixpoint lstrip (s : text) : text :=
  match s with
  | [] => []
  | c :: s' => if is_space c then lstrip s' else s
  end.

(** The class [\w] on the ASCII range. *)
Definition is_word (c : ascii) : bool :=
  let n := nat_of_ascii c in
  ((48 <=? n) && (n <=? 57)) || ((65 <=? n) && (n <=? 90)) ||
  ((97 <=? n) && (n <=? 122)) || (n =? 95).

Definition is_word_opt (c : option ascii) : bool :=
  match c with
  | Some x => is_word x
  | None => false
  end.

(** [\b] between the character before the position and the one at it; the
    two ends of the string count as non-word. *)
Definition word_boundary (before after : option ascii) : bool :=
  xorb (is_word_opt before) (is_word_opt after).

(** An identifier: a non-empty run of word characters. *)
Definition is_identifier (v : text) : bool :=
  match v with
  | [] => false
  | _ :: _ => forallb is_word v
  end.

End Text.

Import Text.

(* ================================================================= *)
(** ** clean_ui.py *)

Module CleanUi.

(** A section to remove: the tuple [(start, end)], half open. *)
Definition span := (nat * nat)%type.

Definition open_brace : ascii := "{"%char.
Definition close_brace : ascii := "}"%char.

(** The inner loop [for j in range(i, min(i + window, len(lines)))], run over
    the lines of the window.  The result is the [j + 1] appended with the
    start line, or [None] when the loop ends without a [break]. *)
Fixpoint scan (window_lines : list text) (j : nat)
              (brace_count : Z) (found_open : bool) : option nat :=
  match window_lines with
  | [] => None
  | l :: rest =>
      let has_open := contains [open_brace] l in
      let found_open' := if has_open then true else found_open in
      let bc1 :=
        if has_open
        then (brace_count + Z.of_nat (count_char open_brace l))%Z
        else brace_count in
      let bc2 := (bc1 - Z.of_nat (count_char close_brace l))%Z in
      if found_open' && (bc2 =? 0)%Z
      then Some (j + 1)
      else scan rest (S j) bc2 found_open'
  end.

(** The lines [lines[j]] for [j] in [range(i, min(i + window, len(lines)))]. *)
Definition window_of (lines : list text) (i window : nat) : list text :=
  firstn (Nat.min (i + window) (length lines) - i) (skipn i lines).

Definition scan_block (lines : list text) (i window : nat) : option nat :=
  scan (window_of lines i window) i 0%Z false.

(** The outer loop [for i, line in enumerate(lines)] up to its [break]: the
    index of the first line that contains the signature. *)
Fixpoint first_line_with (sig : text) (lines : list text) (i : nat)
  : option nat :=
  match lines with
  | [] => None
  | l :: rest =>
      if contains sig l then Some i else first_line_with sig rest (S i)
  end.

(** One of the four search blocks; [remove_sections] is the list built so
    far. *)
Definition find_block (sig : text) (window : nat) (lines : list text)
                      (remove_sections : list span) : list span :=
  match first_line_with sig lines 0 with
  | None => remove_sections
  | Some i =>
      match scan_block lines i window with
      | Some e => remove_sections ++ [(i, e)]
      | None => remove_sections
      end
  end.

(** A search target: the signature text and the scan window. *)
Definition target := (text * nat)%type.

Definition targets : list target :=
  [ (lit "bool UI::DetectEdgeHover(", 100);
    (lit "void UI::RenderCanvasPanel(", 2000);
    (lit "void UI::LoadEyedropperCursor(", 100);
    (lit "void UI::UpdateCursor(", 100) ].

(** The search blocks run one after the other on the same [lines]. *)
Definition collect (ts : list target) (lines : list text) : list span :=
  fold_left (fun acc t => find_block (fst t) (snd t) lines acc) ts [].

Definition remove_sections (lines : list text) : list span :=
  collect targets lines.

(** Tuple comparison [a <= b] of Python: lexicographic. *)
Definition span_leb (a b : span) : bool :=
  (fst a <? fst b) || ((fst a =? fst b) && (snd a <=? snd b)).

(** [remove_sections.sort(reverse=True)]: the list in descending order. *)
Fixpoint insert_desc (x : span) (l : list span) : list span :=
  match l with
  | [] => [x]
  | y :: l' => if span_leb y x then x :: l else y :: insert_desc x l'
  end.

Fixpoint sort_reverse (l : list span) : list span :=
  match l with
  | [] => []
  | x :: l' => insert_desc x (sort_reverse l')
  end.

Section Lines.
Variable A : Type.

(** [del output_lines[start:end]]: the slice bounds are clamped to the list,
    and a slice with [start > end] is empty. *)
Definition del_slice (l : list A) (start stop : nat) : list A :=
  if start <=? stop then firstn start l ++ skipn stop l else l.

(** The loop [for start, end in remove_sections: del output_lines[start:end]]. *)
Definition remove_loop (sections : list span) (lines : list A) : list A :=
  fold_left (fun out s => del_slice out (fst s) (snd s)) sections lines.

(** The list written back by the script for a given list of sections. *)
Definition excise (sections : list span) (lines : list A) : list A :=
  remove_loop (sort_reverse sections) lines.

End Lines.

(** The lines written to [src/UI.cpp]. *)
Definition clean_ui (lines : list text) : list text :=
  excise (remove_sections lines) lines.

(** *** Vocabulary of the specification *)

Definition overlap (a b : span) : bool :=
  (fst a <? snd b) && (fst b <? snd a).

Definition size (s : span) : nat := snd s - fst s.

Definition total_size (l : list span) : nat :=
  fold_right (fun s n => size s + n) 0 l.

(** Line [i] lies in one of the spans. *)
Definition covered (spans : list span) (i : nat) : bool :=
  existsb (fun s => (fst s <=? i) && (i <? snd s)) spans.

Section Retained.
Variable A : Type.

(** The lines of a document, numbered from [off], that no span covers, in
    the order of the document. *)
Fixpoint retained_from (off : nat) (spans : list span) (doc : list A)
  : list A :=
  match doc with
  | [] => []
  | x :: doc' =>
      if covered spans off
      then retained_from (S off) spans doc'
      else x :: retained_from (S off) spans doc'
  end.

Definition retained (spans : list span) (doc : list A) : list A :=
  retained_from 0 spans doc.

(** Putting the lines [block] back at line [at_] of a document. *)
Definition reinsert (doc : list A) (at_ : nat) (block : list A) : list A :=
  firstn at_ doc ++ block ++ skipn at_ doc.

End Retained.

(** A descending chain of spans under line [n]: each span is not empty, ends
    at or before [n], and the spans after it end at or before its start. *)
Fixpoint below (n : nat) (spans : list span) : Prop :=
  match spans with
  | [] => True
  | s :: rest => fst s < snd s /\ snd s <= n /\ below (fst s) rest
  end.

(** The order of the sorted list: each span is at least the ones after it. *)
Definition desc (a b : span) : Prop := span_leb b a = true.

(** A span of the specification: not empty and inside the document. *)
Definition well_formed (len : nat) (s : span) : Prop :=
  fst s < snd s /\ snd s <= len.

(** Pairwise non-overlap of the spans at different places of the list. *)
Definition pairwise_disjoint (spans : list span) : Prop :=
  ForallOrdPairs (fun a b => overlap a b = false) spans.

(** The running balance of the specification after the lines [i..j]: the
    sum over these lines of the opening minus the closing braces, every
    brace of a line counted ([braces] is the number of occurrences of the
    character in the line, counted by the library's [count_occ] and not by
    the script's test and count). *)
Definition braces (c : ascii) (l : text) : nat := count_occ ascii_dec l c.

Definition net (l : text) : Z :=
  (Z.of_nat (braces open_brace l) - Z.of_nat (braces close_brace l))%Z.

Definition balance (ls : list text) : Z :=
  fold_right (fun l z => (net l + z)%Z) 0%Z ls.

Definition opened (ls : list text) : bool :=
  existsb (fun l => 0 <? braces open_brace l) ls.

(** The block that starts at line [i] closes at line [j]: an opening brace
    has been seen in the lines [i..j] and their balance is zero. *)
Definition closes_at (lines : list text) (i j : nat) : bool :=
  opened (firstn (S j - i) (skipn i lines))
  && (balance (firstn (S j - i) (skipn i lines)) =? 0)%Z.

(** The first line of the window [i .. min(i + window, len) - 1] at which
    the block closes. *)
Definition first_closing (lines : list text) (i window : nat) : option nat :=
  find (closes_at lines i)
       (seq i (Nat.min (i + window) (length lines) - i)).

(** The state of the loop when it has run over some lines already: [fo] and
    [bc] stand for what these lines contributed. *)
Definition closes_from (w : list text) (j : nat) (bc : Z) (fo : bool)
                       (k : nat) : bool :=
  (fo || opened (firstn (S (k - j)) w))
  && (bc + balance (firstn (S (k - j)) w) =? 0)%Z.

(** The span a target contributes: its first signature line and the end
    found by the scan, if both exist. *)
Definition located (t : target) (lines : list text) : option span :=
  match first_line_with (fst t) lines 0 with
  | None => None
  | Some i =>
      match scan_block lines i (snd t) with
      | Some e => Some (i, e)
      | None => None
      end
  end.

Definition spans_of (o : option span) : list span :=
  match o with
  | Some s => [s]
  | None => []
  end.

End CleanUi.

(* ================================================================= *)
(** ** extract_canvas.py *)

Module ExtractCanvas.

(** [l[a:b]] for non-negative bounds. *)
Definition slice (A : Type) (l : list A) (a b : nat) : list A :=
  firstn (b - a) (skipn a l).

Definition helper_start := 61.
Definition helper_end := 97.
Definition detect_start := 1973.
Definition detect_end := 2033.
Definition render_start := 2034.
Definition render_end := 3783.

(** A line of static text, with its end of line. *)
Definition ln (s : string) : text := lit s ++ [newline].

(** ['// ' + '='*76 + '\n'] *)
Definition rule : text := lit "// " ++ repeat "="%char 76 ++ [newline].

Definition include_quoted (name : string) : text :=
  lit "#include " ++ [dquote] ++ lit name ++ [dquote; newline].

Definition header : list text :=
  [ include_quoted "CanvasPanel.h";
    include_quoted "../App.h";
    ln "#include <imgui.h>";
    ln "#include <imgui_internal.h>";
    ln "#include <cfloat>";
    ln "#include <cmath>";
    ln "#include <algorithm>";
    ln "#include <set>";
    ln "#include <cstring>";
    [newline];
    ln "namespace Cartograph {";
    [newline];
    rule;
    ln "// Helper functions";
    rule;
    [newline];
    ln "/**";
    ln " * Get all tiles along a line from (x0, y0) to (x1, y1).";
    ln " * Uses Bresenham's line algorithm to ensure continuous painting.";
    ln " */" ].

Definition panel_head : list text :=
  [ [newline];
    rule;
    ln "// CanvasPanel implementation";
    rule;
    [newline];
    ln "CanvasPanel::CanvasPanel() {";
    ln "}";
    [newline];
    ln "CanvasPanel::~CanvasPanel() {";
    ln "}";
    [newline] ].

Definition footer : list text :=
  [ [newline]; ln "} // namespace Cartograph" ].

Definition adapt_helper (line : text) : text :=
  replace (lit "static std::vector") (lit "std::vector") line.

Definition adapt_detect (line : text) : text :=
  replace (lit "bool UI::DetectEdgeHover")
          (lit "bool CanvasPanel::DetectEdgeHover") line.

(** The literal rules of the render loop, in the order of the script. *)
Definition render_rules : list (text * text) :=
  [ (lit "void UI::RenderCanvasPanel", lit "void CanvasPanel::Render");
    (lit "showPropertiesPanel = !showPropertiesPanel",
     lit "*showPropertiesPanel = !(*showPropertiesPanel)");
    (lit "m_layoutInitialized = false", lit "*layoutInitialized = false") ].

Definition apply_rules (rules : list (text * text)) (line : text) : text :=
  fold_left (fun l r => replace (fst r) (snd r) l) rules line.

Definition defer_marker : text := lit "ShowToast(".
Definition defer_prefix : text := lit "// TODO: Re-enable toast: ".

(** The body of [for line in render_lines]. *)
Definition adapt_render (line : text) : text :=
  let adapted_line := apply_rules render_rules line in
  if contains defer_marker adapted_line
  then defer_prefix ++ lstrip adapted_line
  else adapted_line.

(** [for line in lines: output.append(adapt(line))] *)
Definition append_adapted (adapt : text -> text) (lines : list text)
                          (output : list text) : list text :=
  fold_left (fun out line => out ++ [adapt line]) lines output.

(** The lines written to [src/UI/CanvasPanel.cpp]. *)
Definition extract_canvas (ui_lines : list text) : list text :=
  let helper_lines := slice ui_lines helper_start helper_end in
  let detect_lines := slice ui_lines detect_start detect_end in
  let render_lines := slice ui_lines render_start render_end in
  let output := header in
  let output := append_adapted adapt_helper helper_lines output in
  let output := output ++ panel_head in
  let output := append_adapted adapt_detect detect_lines output in
  let output := output ++ [[newline]] in
  let output := append_adapted adapt_render render_lines output in
  output ++ footer.

End ExtractCanvas.

(* ================================================================= *)
(** ** Extraction and removal together *)

Module Transplant.

Section Restore.
Variable A : Type.

(** The lines a span extracts from a document: the slice of
    [extract_canvas.py]. *)
Definition extract (doc : list A) (s : CleanUi.span) : list A :=
  ExtractCanvas.slice doc (fst s) (snd s).

(** Every span's extracted lines put back at the line where the span was
    cut out, the lowest span last removed being the first restored. *)
Definition restore (original : list A) (sections : list CleanUi.span)
                   (excised : list A) : list A :=
  fold_left
    (fun d s => CleanUi.reinsert d (fst s) (extract original s))
    (rev (CleanUi.sort_reverse sections)) excised.

(** The spans of a set arranged by ascending start. *)
Definition ascending (order : list CleanUi.span) : Prop :=
  StronglySorted (fun a b => fst a <= fst b) order.

(** Each span of [order] in turn: the lines it extracted from the original
    are put back at its start line in the document as restored so far. *)
Definition reinsert_all (original : list A) (order : list CleanUi.span)
                        (excised : list A) : list A :=
  fold_left
    (fun d s => CleanUi.reinsert d (fst s) (extract original s))
    order excised.

End Restore.

End Transplant.

(* ================================================================= *)
(** ** update_refs.py *)

Module UpdateRefs.

Definition moved_vars : list text :=
  map lit
    [ "currentTool"; "selectedTileId"; "hoveredTileX"; "hoveredTileY";
      "isHoveringCanvas"; "isSelecting"; "selectionStartX";
      "selectionStartY"; "selectionEndX"; "selectionEndY"; "isPainting";
      "lastPaintedTileX"; "lastPaintedTileY"; "currentPaintChanges";
      "twoFingerEraseActive"; "isModifyingEdges"; "currentEdgeChanges";
      "selectedIconName"; "markerLabel"; "markerColor"; "markerColorHex";
      "selectedMarker"; "hoveredMarker"; "isDraggingMarker"; "dragStartX";
      "dragStartY"; "copiedMarkers"; "hoveredEdge"; "isHoveringEdge";
      "eyedropperAutoSwitchToPaint"; "lastTool"; "selectedRoomId";
      "roomPaintMode"; "showRoomOverlays"; "isPaintingRoomCells";
      "lastRoomPaintX"; "lastRoomPaintY"; "currentRoomAssignments";
      "eraserBrushSize" ]%string.

(** The owner the variables moved to. *)
Definition qualifier : text := lit "m_canvasPanel".

(** The pattern [(?<!q\.)(?<!\.)\b var \b] tried at one position of the
    content: [prev_rev] is the content before the position, last character
    first, and [s] the content from the position on. *)
Definition matches_at (q var prev_rev s : text) : bool :=
  negb (prefixb (rev (q ++ [dot])) prev_rev)
  && negb (prefixb [dot] prev_rev)
  && word_boundary (hd_error prev_rev) (hd_error s)
  && prefixb var s
  && word_boundary (hd_error (rev var ++ prev_rev))
                   (hd_error (skipn (length var) s)).

(** [re.sub(pattern, q + '.' + var, content)] for a non-empty [var] made of
    word characters: the matches are found from left to right and do not
    overlap; [skip] counts the characters of a match still to be passed. *)
Fixpoint sub_go (q var prev_rev : text) (skip : nat) (s : text) : text :=
  match s with
  | [] => []
  | c :: s' =>
      match skip with
      | S k => sub_go q var (c :: prev_rev) k s'
      | O =>
          if matches_at q var prev_rev s
          then (q ++ dot :: var)
                 ++ sub_go q var (c :: prev_rev) (length var - 1) s'
          else c :: sub_go q var (c :: prev_rev) 0 s'
      end
  end.

Definition sub_var (q var content : text) : text :=
  sub_go q var [] 0 content.

(** The loop [for var in moved_vars]. *)
Definition qualify_all (q : text) (vars : list text) (content : text) : text :=
  fold_left (fun c var => sub_var q var c) vars content.

Definition scope_old : text := lit "Tool::".
Definition scope_new : text := lit "CanvasPanel::Tool::".

(** The whole pass, for an owner [q] and a list of variables. *)
Definition rewrite (q : text) (vars : list text) (content : text) : text :=
  qualify_all q vars (replace scope_old scope_new content).

(** The content written back to [src/UI.cpp]. *)
Definition update_refs (content : text) : text :=
  rewrite qualifier moved_vars content.

(** *** Vocabulary of the specification *)

(** [w] stands at the end of [pre] as a whole word would need it on its
    left: the character before it, if any, is not a word character. *)
Definition word_start (pre : text) : bool :=
  negb (is_word_opt (hd_error (rev pre))).

(** The character after the occurrence, if any, is not a word character. *)
Definition word_end (post : text) : bool :=
  negb (is_word_opt (hd_error post)).

(** The text before the occurrence ends with the owner and a dot. *)
Definition owner_qualified (q pre : text) : bool :=
  prefixb (rev (q ++ [dot])) (rev pre).

(** The text before the occurrence ends with a dot. *)
Definition dot_qualified (pre : text) : bool :=
  prefixb [dot] (rev pre).

(** The longest run of word characters at the head of a text, and what
    comes after it. *)
Fixpoint word_run (s : text) : text :=
  match s with
  | [] => []
  | c :: s' => if is_word c then c :: word_run s' else []
  end.

Fixpoint after_run (s : text) : text :=
  match s with
  | [] => []
  | c :: s' => if is_word c then after_run s' else s
  end.

(** The pattern for [var] matches the whole word [w] that stands after the
    text [prev_rev], given last character first. *)
Definition fires (var prev_rev w : text) : bool :=
  if list_eq_dec ascii_dec w var
  then negb (is_word_opt (hd_error prev_rev)) && negb (prefixb [dot] prev_rev)
  else false.

(** A pass for [var] has nothing left to do on [s]. *)
Definition settled (q var s : text) : Prop := sub_var q var s = s.

(** Every name of the table is an identifier. *)
Definition identifiers (vars : list text) : Prop :=
  Forall (fun v => is_identifier v = true) vars.

End UpdateRefs.

(* ================================================================= *)
(** ** Facts about the removal loop of clean_ui.py *)

Module CleanUiFacts.
Import CleanUi.

Section Removal.
Variable A : Type.
Implicit Types (doc pre tl : list A) (spans : list span).

Lemma del_slice_ordered doc s e :
  s <= e -> del_slice doc s e = firstn s doc ++ skipn e doc.
Proof.
  intros H. unfold del_slice.
  destruct (s <=? e) eqn:E; [reflexivity|].
  apply Nat.leb_gt in E. lia.
Qed.

Lemma del_slice_length doc s e :
  s <= e -> e <= length doc ->
  length (del_slice doc s e) + (e - s) = length doc.
Proof.
  intros Hse He. rewrite del_slice_ordered by assumption.
  rewrite length_app, length_firstn, length_skipn. lia.
Qed.

Lemma del_slice_prefix pre tl s e :
  s <= e -> e <= length pre ->
  del_slice (pre ++ tl) s e = del_slice pre s e ++ tl.
Proof.
  intros Hse He. rewrite !del_slice_ordered by assumption.
  rewrite firstn_app, skipn_app.
  replace (s - length pre) with 0 by lia.
  replace (e - length pre) with 0 by lia.
  simpl. rewrite app_nil_r, app_assoc. reflexivity.
Qed.

Lemma remove_loop_cons s spans doc :
  remove_loop (s :: spans) doc
  = remove_loop spans (del_slice doc (fst s) (snd s)).
Proof. reflexivity. Qed.

(** Deletions below line [n] do not see what lies after a prefix of [n]
    lines or more. *)
Lemma remove_loop_prefix spans :
  forall n pre tl,
    below n spans -> n <= length pre ->
    remove_loop spans (pre ++ tl) = remove_loop spans pre ++ tl.
Proof.
  induction spans as [|[s e] r IH]; intros n pre tl Hb Hn; [reflexivity|].
  simpl in Hb. destruct Hb as (Hse & Hen & Hr).
  rewrite !remove_loop_cons. simpl fst; simpl snd.
  rewrite del_slice_prefix by lia.
  apply (IH s); [assumption|].
  pose proof (@del_slice_length pre s e). lia.
Qed.

Lemma remove_loop_length spans :
  forall n doc,
    below n spans -> n <= length doc ->
    length (remove_loop spans doc) + total_size spans = length doc.
Proof.
  induction spans as [|[s e] r IH]; intros n doc Hb Hn.
  - simpl. lia.
  - simpl in Hb. destruct Hb as (Hse & Hen & Hr).
    rewrite remove_loop_cons. simpl fst; simpl snd.
    pose proof (@del_slice_length doc s e) as HL.
    specialize (IH s (del_slice doc s e) Hr).
    simpl total_size. unfold size at 1. simpl fst; simpl snd. lia.
Qed.

(** *** The retained lines *)

Lemma retained_from_app spans :
  forall doc off tl,
    retained_from off spans (doc ++ tl)
    = retained_from off spans doc
      ++ retained_from (off + length doc) spans tl.
Proof.
  induction doc as [|x doc IH]; intros off tl; simpl.
  - rewrite Nat.add_0_r. reflexivity.
  - rewrite IH. replace (S off + length doc) with (off + S (length doc)) by lia.
    destruct (covered spans off); reflexivity.
Qed.

Lemma retained_from_ext spans spans' :
  forall doc off,
    (forall i, off <= i < off + length doc ->
               covered spans i = covered spans' i) ->
    retained_from off spans doc = retained_from off spans' doc.
Proof.
  induction doc as [|x doc IH]; intros off H; simpl; [reflexivity|].
  rewrite (H off) by (simpl; lia).
  rewrite (IH (S off)); [reflexivity|].
  intros i Hi. apply H. simpl. lia.
Qed.

Lemma retained_from_uncovered spans :
  forall doc off,
    (forall i, off <= i < off + length doc -> covered spans i = false) ->
    retained_from off spans doc = doc.
Proof.
  induction doc as [|x doc IH]; intros off H; simpl; [reflexivity|].
  rewrite (H off) by (simpl; lia).
  rewrite (IH (S off)); [reflexivity|].
  intros i Hi. apply H. simpl. lia.
Qed.

Lemma retained_from_covered spans :
  forall doc off,
    (forall i, off <= i < off + length doc -> covered spans i = true) ->
    retained_from off spans doc = [].
Proof.
  induction doc as [|x doc IH]; intros off H; simpl; [reflexivity|].
  rewrite (H off) by (simpl; lia).
  apply IH. intros i Hi. apply H. simpl. lia.
Qed.

Lemma covered_cons s spans i :
  covered (s :: spans) i
  = ((fst s <=? i) && (i <? snd s)) || covered spans i.
Proof. reflexivity. Qed.

Lemma covered_below spans :
  forall n i, below n spans -> n <= i -> covered spans i = false.
Proof.
  induction spans as [|[s e] r IH]; intros n i Hb Hi; [reflexivity|].
  simpl in Hb. destruct Hb as (Hse & Hen & Hr).
  rewrite covered_cons. simpl fst; simpl snd.
  rewrite (IH s i Hr) by lia.
  destruct (i <? e) eqn:E; [apply Nat.ltb_lt in E; lia|].
  rewrite andb_false_r. reflexivity.
Qed.

(** With the highest span first, the retained lines are those retained by
    the other spans before its start, and all the lines from its end on. *)
Lemma retained_cons_below s e spans doc :
  s < e -> e <= length doc -> below s spans ->
  retained ((s, e) :: spans) doc
  = retained spans (firstn s doc) ++ skipn e doc.
Proof.
  intros Hse He Hb. unfold retained.
  rewrite <- (firstn_skipn s doc) at 1.
  rewrite retained_from_app. simpl.
  rewrite length_firstn, Nat.min_l by lia.
  rewrite <- (firstn_skipn (e - s) (skipn s doc)) at 1.
  rewrite retained_from_app.
  rewrite length_firstn, length_skipn, Nat.min_l by lia.
  rewrite skipn_skipn. replace (e - s + s) with e by lia.
  rewrite (@retained_from_ext ((s, e) :: spans) spans (firstn s doc) 0).
  2:{ intros i Hi. rewrite length_firstn in Hi.
      rewrite covered_cons. simpl fst.
      destruct (s <=? i) eqn:E; [apply Nat.leb_le in E; lia|reflexivity]. }
  rewrite (@retained_from_covered ((s, e) :: spans)
             (firstn (e - s) (skipn s doc)) s).
  2:{ intros i Hi. rewrite length_firstn, length_skipn in Hi.
      rewrite covered_cons. simpl fst; simpl snd.
      destruct (s <=? i) eqn:E1; [|apply Nat.leb_gt in E1; lia].
      destruct (i <? e) eqn:E2; [reflexivity|apply Nat.ltb_ge in E2; lia]. }
  rewrite (@retained_from_uncovered ((s, e) :: spans) (skipn e doc)).
  2:{ intros i Hi. rewrite covered_cons. simpl fst; simpl snd.
      rewrite (@covered_below spans s i Hb) by lia.
      destruct (i <? e) eqn:E2; [apply Nat.ltb_lt in E2; lia|].
      rewrite andb_false_r. reflexivity. }
  reflexivity.
Qed.

(** The loop over a descending chain leaves exactly the retained lines. *)
Lemma remove_loop_retained spans :
  forall n doc,
    below n spans -> n <= length doc ->
    remove_loop spans doc = retained spans doc.
Proof.
  induction spans as [|[s e] r IH]; intros n doc Hb Hn.
  - simpl. unfold retained. symmetry.
    apply retained_from_uncovered. reflexivity.
  - simpl in Hb. destruct Hb as (Hse & Hen & Hr).
    rewrite remove_loop_cons. simpl fst; simpl snd.
    rewrite del_slice_ordered by lia.
    rewrite (@remove_loop_prefix r s) by
      (try assumption; rewrite length_firstn; lia).
    rewrite (IH s) by (try assumption; rewrite length_firstn; lia).
    symmetry. apply retained_cons_below; try assumption; lia.
Qed.

End Removal.

(** *** The descending sort *)

Lemma span_leb_spec a b :
  span_leb a b = true <->
  fst a < fst b \/ (fst a = fst b /\ snd a <= snd b).
Proof.
  unfold span_leb.
  rewrite orb_true_iff, andb_true_iff, Nat.ltb_lt, Nat.eqb_eq, Nat.leb_le.
  reflexivity.
Qed.

Lemma span_leb_total a b : span_leb a b = false -> span_leb b a = true.
Proof.
  intros H. apply span_leb_spec.
  destruct (span_leb b a) eqn:E; [apply span_leb_spec in E; exact E|].
  assert (~ (fst a < fst b \/ (fst a = fst b /\ snd a <= snd b))) as Ha
    by (rewrite <- span_leb_spec; congruence).
  lia.
Qed.

Lemma span_leb_trans a b c :
  span_leb a b = true -> span_leb b c = true -> span_leb a c = true.
Proof. rewrite !span_leb_spec. lia. Qed.

Lemma overlap_spec a b :
  overlap a b = false <-> ~ (fst a < snd b /\ fst b < snd a).
Proof.
  unfold overlap. rewrite andb_false_iff, !Nat.ltb_ge. lia.
Qed.

Lemma overlap_sym a b : overlap a b = overlap b a.
Proof. unfold overlap. apply andb_comm. Qed.

Lemma insert_desc_perm x l : Permutation (insert_desc x l) (x :: l).
Proof.
  induction l as [|y l IH]; simpl; [constructor; constructor|].
  destruct (span_leb y x); [apply Permutation_refl|].
  eapply perm_trans; [apply perm_skip, IH|apply perm_swap].
Qed.

Lemma sort_reverse_perm l : Permutation (sort_reverse l) l.
Proof.
  induction l as [|x l IH]; simpl; [constructor|].
  eapply perm_trans; [apply insert_desc_perm|apply perm_skip, IH].
Qed.

Lemma insert_desc_sorted x l :
  StronglySorted desc l -> StronglySorted desc (insert_desc x l).
Proof.
  induction 1 as [|y l Hs IH Hy]; simpl.
  - constructor; constructor.
  - destruct (span_leb y x) eqn:E.
    + constructor; [constructor; assumption|].
      constructor; [exact E|].
      eapply Forall_impl; [|exact Hy].
      intros z Hz. unfold desc in *. eapply span_leb_trans; eassumption.
    + constructor; [exact IH|].
      eapply Permutation_Forall; [symmetry; apply insert_desc_perm|].
      constructor; [|exact Hy].
      unfold desc. apply span_leb_total, E.
Qed.

Lemma sort_reverse_sorted l : StronglySorted desc (sort_reverse l).
Proof.
  induction l as [|x l IH]; simpl; [constructor|].
  apply insert_desc_sorted, IH.
Qed.

Lemma pairwise_disjoint_perm l l' :
  Permutation l l' -> pairwise_disjoint l -> pairwise_disjoint l'.
Proof.
  unfold pairwise_disjoint.
  induction 1 as [|x l l' Hp IH|x y l|l l' l'' _ IH1 _ IH2]; intros H.
  - constructor.
  - inversion H; subst. constructor; [|auto].
    eapply Permutation_Forall; eassumption.
  - inversion H as [|? ? Hy Hr]; subst.
    inversion Hr as [|? ? Hx Hl]; subst.
    inversion Hy as [|? ? Hyx Hyl]; subst.
    constructor; [|constructor; assumption].
    constructor; [rewrite overlap_sym; exact Hyx|exact Hx].
  - auto.
Qed.

Lemma covered_perm l l' i : Permutation l l' -> covered l i = covered l' i.
Proof.
  induction 1 as [|x l l' Hp IH|x y l|l l' l'' _ IH1 _ IH2].
  - reflexivity.
  - rewrite !covered_cons, IH. reflexivity.
  - rewrite !covered_cons.
    destruct ((fst x <=? i) && (i <? snd x)),
             ((fst y <=? i) && (i <? snd y)); reflexivity.
  - congruence.
Qed.

Lemma total_size_perm l l' : Permutation l l' -> total_size l = total_size l'.
Proof.
  induction 1; simpl; lia.
Qed.

Lemma retained_perm (A : Type) l l' (doc : list A) :
  Permutation l l' -> retained l doc = retained l' doc.
Proof.
  intros H. apply retained_from_ext. intros i _. apply covered_perm, H.
Qed.

(** A descending list of disjoint, well-formed spans is a chain. *)
Lemma sorted_disjoint_below l :
  forall n,
    Forall (well_formed n) l ->
    StronglySorted desc l -> pairwise_disjoint l ->
    below n l.
Proof.
  induction l as [|s r IH]; intros n Hwf Hs Hd; [exact I|].
  inversion Hwf as [|? ? [Hs1 Hs2] Hwr]; subst.
  inversion Hs as [|? ? Hsr Hall]; subst.
  inversion Hd as [|? ? Hdis Hdr]; subst.
  simpl. repeat split; try assumption.
  apply IH; try assumption.
  rewrite Forall_forall in *. intros b Hb.
  specialize (Hwr b Hb). destruct Hwr as [Hb1 Hb2].
  specialize (Hall b Hb). unfold desc in Hall.
  apply span_leb_spec in Hall.
  specialize (Hdis b Hb). apply overlap_spec in Hdis.
  split; [assumption|lia].
Qed.

Lemma excise_chain len spans :
  Forall (well_formed len) spans -> pairwise_disjoint spans ->
  below len (sort_reverse spans).
Proof.
  intros Hwf Hd. apply sorted_disjoint_below.
  - eapply Permutation_Forall; [symmetry; apply sort_reverse_perm|exact Hwf].
  - apply sort_reverse_sorted.
  - eapply pairwise_disjoint_perm; [symmetry; apply sort_reverse_perm|exact Hd].
Qed.

(** What the sort and the loop do together on disjoint spans. *)
Lemma excise_retained (A : Type) (doc : list A) spans :
  Forall (well_formed (length doc)) spans -> pairwise_disjoint spans ->
  excise spans doc = retained spans doc.
Proof.
  intros Hwf Hd. unfold excise.
  rewrite (@remove_loop_retained A (sort_reverse spans) (length doc) doc).
  - apply retained_perm, sort_reverse_perm.
  - apply excise_chain; assumption.
  - lia.
Qed.

Lemma excise_length (A : Type) (doc : list A) spans :
  Forall (well_formed (length doc)) spans -> pairwise_disjoint spans ->
  length (excise spans doc) + total_size spans = length doc.
Proof.
  intros Hwf Hd. unfold excise.
  rewrite <- (total_size_perm (sort_reverse_perm spans)).
  apply (@remove_loop_length A (sort_reverse spans) (length doc) doc).
  - apply excise_chain; assumption.
  - lia.
Qed.

(** **** C1.  For a document of length L and pairwise non-overlapping spans
    inside it, the sort in descending order followed by the removal loop
    yields a document of length L minus the sum of the span sizes, made of
    exactly the lines that no span covers, each unaltered and in the order
    of the original document. *)
Theorem excise_length_and_order (A : Type) (doc : list A) (spans : list span) :
  Forall (well_formed (length doc)) spans ->
  pairwise_disjoint spans ->
  total_size spans <= length doc /\
  length (excise spans doc) = length doc - total_size spans /\
  excise spans doc = retained spans doc.
Proof.
  intros Hwf Hd.
  pose proof (excise_length doc Hwf Hd) as HL.
  repeat split; try lia.
  apply excise_retained; assumption.
Qed.

Lemma excise_length_and_order_witness :
  let doc := [10; 11; 12; 13; 14; 15; 16; 17; 18; 19; 20; 21; 22; 23; 24] in
  let spans := [(2, 5); (10, 14)] in
  total_size spans <= length doc /\
  length (excise spans doc) = length doc - total_size spans /\
  excise spans doc = retained spans doc.
Proof.
  apply excise_length_and_order.
  - repeat constructor.
  - repeat constructor.
Defined.

End CleanUiFacts.

(* ================================================================= *)
(** ** Extraction followed by removal *)

Module TransplantFacts.
Import CleanUi CleanUiFacts ExtractCanvas Transplant.

Section Roundtrip.
Variable A : Type.
Implicit Types (doc orig : list A) (spans : list span).

(** The slice holds the lines [start .. end - 1], in order. *)
Lemma slice_nth_error doc a b k :
  b <= length doc -> k < b - a ->
  nth_error (slice doc a b) k = nth_error doc (a + k).
Proof.
  intros Hb Hk. unfold slice.
  rewrite nth_error_firstn.
  destruct (k <? b - a) eqn:E; [|apply Nat.ltb_ge in E; lia].
  apply nth_error_skipn.
Qed.

Lemma slice_length doc a b :
  b <= length doc -> length (slice doc a b) = b - a.
Proof.
  intros Hb. unfold slice. rewrite length_firstn, length_skipn. lia.
Qed.

(** A slice only reads the lines before its end. *)
Lemma slice_agree doc orig n a b :
  firstn n orig = firstn n doc -> b <= n ->
  slice orig a b = slice doc a b.
Proof.
  intros H Hb. unfold slice.
  destruct (Nat.le_gt_cases a b) as [Hab|Hab].
  - rewrite !firstn_skipn_comm. replace (a + (b - a)) with b by lia.
    assert (firstn b orig = firstn b doc) as Hfb.
    { rewrite <- (Nat.min_l b n) by lia.
      rewrite <- !firstn_firstn, H. reflexivity. }
    rewrite Hfb. reflexivity.
  - replace (b - a) with 0 by lia. reflexivity.
Qed.

(** Cutting a span out and putting its lines back is the identity. *)
Lemma reinsert_del_slice doc a b :
  a <= b ->
  reinsert (del_slice doc a b) a (slice doc a b) = doc.
Proof.
  intros Hab. unfold reinsert, slice.
  rewrite del_slice_ordered by assumption.
  destruct (Nat.le_gt_cases a (length doc)) as [Ha|Ha].
  - rewrite firstn_app, skipn_app, length_firstn, Nat.min_l by assumption.
    replace (a - a) with 0 by lia. simpl.
    rewrite firstn_firstn, Nat.min_id.
    rewrite skipn_firstn_comm. replace (a - a) with 0 by lia. simpl.
    rewrite app_nil_r.
    replace (skipn b doc) with (skipn (b - a) (skipn a doc))
      by (rewrite skipn_skipn; f_equal; lia).
    rewrite firstn_skipn. apply firstn_skipn.
  - rewrite (@skipn_all2 _ b doc), (@skipn_all2 _ a doc) by lia.
    rewrite app_nil_r, firstn_nil.
    rewrite (@firstn_all2 _ a doc) by lia.
    rewrite (@firstn_all2 _ a doc) by lia.
    rewrite (@skipn_all2 _ a doc) by lia.
    rewrite !app_nil_r. reflexivity.
Qed.

(** Restoring in ascending order undoes the loop over a descending chain,
    whichever document the extracted lines were read from, as long as it
    agrees with the edited one below the chain. *)
Lemma restore_chain spans :
  forall n doc orig,
    below n spans -> n <= length doc ->
    firstn n orig = firstn n doc ->
    fold_left (fun d s => reinsert d (fst s) (extract orig s))
              (rev spans) (remove_loop spans doc)
    = doc.
Proof.
  induction spans as [|[s e] r IH]; intros n doc orig Hb Hn Hagree.
  - reflexivity.
  - simpl in Hb. destruct Hb as (Hse & Hen & Hr).
    rewrite remove_loop_cons. simpl rev. rewrite fold_left_app.
    simpl fst; simpl snd. simpl fold_left at 1.
    assert (firstn s orig = firstn s doc) as Hs.
    { rewrite <- (Nat.min_l s n) by lia.
      rewrite <- !firstn_firstn, Hagree. reflexivity. }
    rewrite (IH s).
    + unfold extract. simpl fst; simpl snd.
      rewrite (@slice_agree doc orig n s e) by assumption.
      apply reinsert_del_slice. lia.
    + assumption.
    + pose proof (@del_slice_length A doc s e). lia.
    + rewrite del_slice_ordered by lia.
      rewrite firstn_app, length_firstn, Nat.min_l by lia.
      replace (s - s) with 0 by lia. simpl.
      rewrite app_nil_r, firstn_firstn, Nat.min_id. exact Hs.
Qed.

Lemma restore_excise doc spans :
  Forall (well_formed (length doc)) spans -> pairwise_disjoint spans ->
  restore doc spans (excise spans doc) = doc.
Proof.
  intros Hwf Hd. unfold restore, excise.
  apply (@restore_chain (sort_reverse spans) (length doc)).
  - apply excise_chain; assumption.
  - lia.
  - reflexivity.
Qed.

Lemma sorted_snoc (B : Type) (R : B -> B -> Prop) l x :
  StronglySorted R l -> Forall (fun y => R y x) l ->
  StronglySorted R (l ++ [x]).
Proof.
  induction 1 as [|y l Hs IH Hy]; intros Hx; simpl.
  - constructor; constructor.
  - inversion Hx; subst. constructor; [apply IH; assumption|].
    apply Forall_app. split; [exact Hy|]. constructor; [assumption|constructor].
Qed.

Lemma sorted_rev (B : Type) (R : B -> B -> Prop) l :
  StronglySorted R l -> StronglySorted (fun a b => R b a) (rev l).
Proof.
  induction 1 as [|x l Hs IH Hx]; simpl; [constructor|].
  apply sorted_snoc; [exact IH|].
  apply Forall_rev. exact Hx.
Qed.

(** Disjoint, well-formed spans by descending start are a chain. *)
Lemma descending_starts_below l :
  forall n,
    Forall (well_formed n) l ->
    StronglySorted (fun a b => fst b <= fst a) l ->
    pairwise_disjoint l ->
    below n l.
Proof.
  induction l as [|s r IH]; intros n Hwf Hs Hd; [exact I|].
  inversion Hwf as [|? ? [Hs1 Hs2] Hwr]; subst.
  inversion Hs as [|? ? Hsr Hall]; subst.
  inversion Hd as [|? ? Hdis Hdr]; subst.
  simpl. repeat split; try assumption.
  apply IH; try assumption.
  rewrite Forall_forall in *. intros b Hb.
  specialize (Hwr b Hb). destruct Hwr as [Hb1 Hb2].
  specialize (Hall b Hb). simpl in Hall.
  specialize (Hdis b Hb). apply overlap_spec in Hdis.
  split; [assumption|lia].
Qed.

(** Whatever ascending arrangement of the span set is followed, putting the
    extracted lines back undoes the excision. *)
Lemma reinsert_all_excise doc spans order :
  Forall (well_formed (length doc)) spans -> pairwise_disjoint spans ->
  Permutation order spans -> ascending order ->
  reinsert_all doc order (excise spans doc) = doc.
Proof.
  intros Hwf Hd Hp Hasc.
  assert (Permutation (rev order) spans) as Hp'
    by (eapply perm_trans; [symmetry; apply Permutation_rev|exact Hp]).
  assert (below (length doc) (rev order)) as Hb.
  { apply descending_starts_below.
    - eapply Permutation_Forall; [symmetry; exact Hp'|exact Hwf].
    - apply (sorted_rev Hasc).
    - eapply pairwise_disjoint_perm; [symmetry; exact Hp'|exact Hd]. }
  rewrite (excise_retained doc Hwf Hd).
  rewrite <- (retained_perm doc Hp').
  rewrite <- (@remove_loop_retained A (rev order) (length doc) doc Hb)
    by lia.
  unfold reinsert_all. rewrite <- (rev_involutive order) at 1.
  apply (@restore_chain (rev order) (length doc)); [exact Hb|lia|reflexivity].
Qed.

(** **** C6.  The extraction slice of a span holds exactly the lines
    [start, end) of the document, in their order.  For pairwise
    non-overlapping spans inside the document, the excised document is the
    original without exactly the lines of the given spans, and putting the
    extracted lines of every span of the set back at its start line, the
    spans taken by ascending start, gives the original document again. *)
Theorem extract_then_excise_preserves_content doc spans order :
  Forall (well_formed (length doc)) spans ->
  pairwise_disjoint spans ->
  Permutation order spans -> ascending order ->
  (forall s, In s spans ->
     length (extract doc s) = size s /\
     forall k, k < size s ->
       nth_error (extract doc s) k = nth_error doc (fst s + k)) /\
  excise spans doc = retained spans doc /\
  length (excise spans doc) + total_size spans = length doc /\
  reinsert_all doc order (excise spans doc) = doc /\
  restore doc spans (excise spans doc) = doc.
Proof.
  intros Hwf Hd Hp Hasc. split; [|split; [|split; [|split]]].
  - intros s Hs. rewrite Forall_forall in Hwf.
    destruct (Hwf s Hs) as [H1 H2]. unfold extract, size. split.
    + apply slice_length. assumption.
    + intros k Hk. apply slice_nth_error; assumption.
  - apply excise_retained; assumption.
  - apply excise_length; assumption.
  - apply reinsert_all_excise; assumption.
  - apply restore_excise; assumption.
Qed.

End Roundtrip.

Lemma extract_then_excise_preserves_content_witness :
  let doc := [10; 11; 12; 13; 14; 15; 16; 17; 18; 19; 20; 21; 22; 23; 24] in
  let spans := [(10, 14); (2, 5)] in
  let order := [(2, 5); (10, 14)] in
  (forall s, In s spans ->
     length (extract doc s) = size s /\
     forall k, k < size s ->
       nth_error (extract doc s) k = nth_error doc (fst s + k)) /\
  excise spans doc = retained spans doc /\
  length (excise spans doc) + total_size spans = length doc /\
  reinsert_all doc order (excise spans doc) = doc /\
  restore doc spans (excise spans doc) = doc.
Proof.
  apply extract_then_excise_preserves_content.
  - repeat constructor.
  - repeat constructor.
  - apply perm_swap.
  - repeat constructor.
Defined.

End TransplantFacts.

(* ================================================================= *)
(** ** The brace-balance scan of clean_ui.py *)

Module ScanFacts.
Import CleanUi.

Lemma contains_char c l : contains [c] l = (0 <? count_char c l).
Proof.
  induction l as [|x l IH]; [reflexivity|].
  simpl contains. simpl count_char. rewrite IH.
  destruct (Ascii.eqb c x); simpl; [reflexivity|].
  destruct l; reflexivity.
Qed.

(** [str.count] counts every occurrence. *)
Lemma count_char_braces c l : count_char c l = braces c l.
Proof.
  unfold braces. induction l as [|x l IH]; [reflexivity|].
  cbn [count_char count_occ]. rewrite IH.
  destruct (ascii_dec x c) as [->|Hne].
  - rewrite Ascii.eqb_refl. reflexivity.
  - destruct (Ascii.eqb c x) eqn:E; [|reflexivity].
    apply Ascii.eqb_eq in E. congruence.
Qed.

(** One round of the loop, with the guarded increment folded into the net
    brace count of the line. *)
Lemma scan_cons l rest j bc fo :
  scan (l :: rest) j bc fo
  = let fo' := fo || (0 <? count_char open_brace l) in
    let bc' := (bc + net l)%Z in
    if fo' && (bc' =? 0)%Z then Some (j + 1) else scan rest (S j) bc' fo'.
Proof.
  simpl scan. rewrite contains_char. unfold net.
  rewrite <- !count_char_braces.
  destruct (0 <? count_char open_brace l) eqn:E.
  - rewrite orb_true_r. simpl.
    replace (bc + Z.of_nat (count_char open_brace l)
             - Z.of_nat (count_char close_brace l))%Z
      with (bc + (Z.of_nat (count_char open_brace l)
                  - Z.of_nat (count_char close_brace l)))%Z by lia.
    reflexivity.
  - rewrite orb_false_r. apply Nat.ltb_ge in E.
    replace (count_char open_brace l) with 0 by lia. simpl.
    replace (bc + (0 - Z.of_nat (count_char close_brace l)))%Z
      with (bc - Z.of_nat (count_char close_brace l))%Z by lia.
    destruct fo; reflexivity.
Qed.

Lemma find_agree (B : Type) (f g : B -> bool) l :
  (forall x, In x l -> f x = g x) -> find f l = find g l.
Proof.
  induction l as [|x l IH]; intros H; [reflexivity|].
  simpl. rewrite (H x) by (left; reflexivity).
  rewrite IH; [reflexivity|]. intros y Hy. apply H. right. exact Hy.
Qed.

Lemma scan_find w :
  forall j bc fo,
    scan w j bc fo
    = option_map (fun k => k + 1)
        (find (closes_from w j bc fo) (seq j (length w))).
Proof.
  induction w as [|l rest IH]; intros j bc fo; [reflexivity|].
  rewrite scan_cons. cbv zeta. simpl length. simpl seq. simpl find.
  assert (closes_from (l :: rest) j bc fo j
          = (fo || (0 <? count_char open_brace l))
            && (bc + net l =? 0)%Z) as Hj.
  { unfold closes_from. rewrite Nat.sub_diag. simpl.
    rewrite count_char_braces, orb_false_r. f_equal. f_equal. lia. }
  rewrite Hj.
  destruct ((fo || (0 <? count_char open_brace l)) && (bc + net l =? 0)%Z);
    [reflexivity|].
  rewrite IH. f_equal. apply find_agree.
  intros k Hk. apply in_seq in Hk.
  unfold closes_from.
  replace (k - j) with (S (k - S j)) by lia.
  simpl. rewrite count_char_braces, orb_assoc. f_equal. f_equal. lia.
Qed.

Lemma window_length lines i window :
  length (window_of lines i window)
  = Nat.min (i + window) (length lines) - i.
Proof.
  unfold window_of. rewrite length_firstn, length_skipn. lia.
Qed.

(** The loop of the script finds the first closing line of the window. *)
Lemma scan_block_first_closing lines i window :
  scan_block lines i window
  = option_map (fun j => j + 1) (first_closing lines i window).
Proof.
  unfold scan_block, first_closing. rewrite scan_find, window_length.
  f_equal. apply find_agree. intros k Hk. apply in_seq in Hk.
  unfold closes_from, closes_at, window_of.
  replace (S k - i) with (S (k - i)) by lia.
  rewrite firstn_firstn, Nat.min_l by lia.
  simpl orb. f_equal.
Qed.

Lemma find_seq_first (f : nat -> bool) :
  forall n a j,
    find f (seq a n) = Some j <->
    (a <= j < a + n /\ f j = true /\ forall j', a <= j' < j -> f j' = false).
Proof.
  induction n as [|n IH]; intros a j; simpl.
  - split; [discriminate|lia].
  - destruct (f a) eqn:Fa.
    + split.
      * intros H. injection H as <-. repeat split; try lia; assumption.
      * intros (Hr & Hf & Hmin).
        destruct (Nat.eq_dec a j) as [->|Hne]; [reflexivity|].
        rewrite (Hmin a) in Fa by lia. discriminate.
    + rewrite IH. split.
      * intros (Hr & Hf & Hmin). repeat split; try lia; try assumption.
        intros j' Hj'. destruct (Nat.eq_dec j' a) as [->|Hne];
          [assumption|apply Hmin; lia].
      * intros (Hr & Hf & Hmin).
        assert (a <> j) by (intros ->; congruence).
        repeat split; try lia; try assumption.
        intros j' Hj'. apply Hmin. lia.
Qed.

Lemma find_seq_none (f : nat -> bool) n a :
  find f (seq a n) = None <-> (forall j, a <= j < a + n -> f j = false).
Proof.
  split.
  - intros H j Hj. apply (find_none _ _ H). apply in_seq. exact Hj.
  - intros H. destruct (find f (seq a n)) eqn:E; [|reflexivity].
    apply find_some in E. destruct E as [Hin Hf].
    apply in_seq in Hin. rewrite (H n0 Hin) in Hf. discriminate.
Qed.

(** **** C3.  When the signature is first met on line [i], the search block
    appends the span [(i, j + 1)] for the first line [j] of the scan window
    at which an opening brace has been seen since line [i] and the sum of
    opening minus closing braces over the lines [i..j], each line adding
    the number of its opening and taking the number of its closing braces,
    is zero, and it appends nothing when the window holds no such line. *)
Theorem find_block_first_closing sig window lines acc i :
  first_line_with sig lines 0 = Some i ->
  find_block sig window lines acc
  = match first_closing lines i window with
    | Some j => acc ++ [(i, j + 1)]
    | None => acc
    end
  /\ (forall j,
        first_closing lines i window = Some j <->
        (i <= j < Nat.min (i + window) (length lines)
         /\ closes_at lines i j = true
         /\ forall j', i <= j' < j -> closes_at lines i j' = false))
  /\ (first_closing lines i window = None <->
      forall j, i <= j < Nat.min (i + window) (length lines) ->
                closes_at lines i j = false)
  /\ (forall j,
        closes_at lines i j
        = existsb (fun l => 0 <? count_occ ascii_dec l "{"%char)
                  (firstn (S j - i) (skipn i lines))
          && (fold_right
                (fun l z =>
                   (Z.of_nat (count_occ ascii_dec l "{"%char)
                    - Z.of_nat (count_occ ascii_dec l "}"%char) + z)%Z)
                0%Z (firstn (S j - i) (skipn i lines)) =? 0)%Z).
Proof.
  intros Hsig. split; [|split; [|split]].
  - unfold find_block. rewrite Hsig, scan_block_first_closing.
    destruct (first_closing lines i window); reflexivity.
  - intros j. unfold first_closing. rewrite find_seq_first.
    split; intros (Hr & Hrest); (split; [lia|exact Hrest]).
  - unfold first_closing. rewrite find_seq_none.
    split; intros H j Hj; apply H; lia.
  - intros j. reflexivity.
Qed.

Lemma find_block_first_closing_witness :
  let lines := map lit ["sig() { if (x) {"; "    y(); }"; "  z();"; "}";
                        "after"]%string in
  map net lines = [2; -1; 0; -1; 0]%Z
  /\ find_block (lit "sig(") 100 lines [] = [(0, 4)]
  /\ first_closing lines 0 100 = Some 3
  /\ find_block (lit "sig(") 3 lines [] = [].
Proof.
  intros lines.
  destruct (@find_block_first_closing (lit "sig(") 100 lines [] 0
              eq_refl) as (H1 & _ & _).
  destruct (@find_block_first_closing (lit "sig(") 3 lines [] 0
              eq_refl) as (H2 & _ & _).
  split; [reflexivity|].
  split; [rewrite H1; reflexivity|].
  split; [reflexivity|rewrite H2; reflexivity].
Defined.

End ScanFacts.

(* ================================================================= *)
(** ** The whole run of clean_ui.py *)

Module CleanUiRun.
Import CleanUi CleanUiFacts ScanFacts ExtractCanvas.

Lemma find_block_located t lines acc :
  find_block (fst t) (snd t) lines acc = acc ++ spans_of (located t lines).
Proof.
  unfold find_block, located.
  destruct (first_line_with (fst t) lines 0) as [i|];
    [|simpl; rewrite app_nil_r; reflexivity].
  destruct (scan_block lines i (snd t));
    [reflexivity|simpl; rewrite app_nil_r; reflexivity].
Qed.

Lemma collect_from ts lines :
  forall acc,
    fold_left (fun acc t => find_block (fst t) (snd t) lines acc) ts acc
    = acc ++ flat_map (fun t => spans_of (located t lines)) ts.
Proof.
  induction ts as [|t ts IH]; intros acc; simpl.
  - rewrite app_nil_r. reflexivity.
  - rewrite IH, find_block_located, app_assoc. reflexivity.
Qed.

(** The list of sections holds one span for each target that was located,
    in the order of the targets. *)
Lemma collect_located ts lines :
  collect ts lines = flat_map (fun t => spans_of (located t lines)) ts.
Proof. unfold collect. rewrite collect_from. reflexivity. Qed.

Lemma first_line_with_spec sig lines :
  forall off i,
    first_line_with sig lines off = Some i ->
    off <= i < off + length lines
    /\ (exists l, nth_error lines (i - off) = Some l /\ contains sig l = true)
    /\ (forall k l, k < i - off -> nth_error lines k = Some l ->
                    contains sig l = false).
Proof.
  induction lines as [|x lines IH]; intros off i H; simpl in H; [discriminate|].
  destruct (contains sig x) eqn:E.
  - injection H as <-. rewrite Nat.sub_diag. simpl.
    split; [lia|]. split.
    + exists x. split; [reflexivity|assumption].
    + intros k l Hk. lia.
  - destruct (IH (S off) i H) as (Hr & (l & Hl & Hc) & Hmin).
    split; [simpl; lia|]. split.
    + exists l. replace (i - off) with (S (i - S off)) by lia.
      split; assumption.
    + intros k l' Hk Hn. destruct k as [|k]; simpl in Hn.
      * injection Hn as <-. assumption.
      * apply (Hmin k l'); [lia|assumption].
Qed.

Lemma scan_block_range lines i window e :
  scan_block lines i window = Some e ->
  i < e /\ e <= length lines.
Proof.
  rewrite scan_block_first_closing. unfold first_closing.
  destruct (find _ _) as [j|] eqn:E; [|discriminate].
  intros H. injection H as <-.
  apply find_seq_first in E. lia.
Qed.

Lemma located_well_formed t lines s :
  located t lines = Some s -> well_formed (length lines) s.
Proof.
  unfold located.
  destruct (first_line_with (fst t) lines 0) as [i|]; [|discriminate].
  destruct (scan_block lines i (snd t)) as [e|] eqn:E; [|discriminate].
  intros H. injection H as <-.
  apply scan_block_range in E. exact E.
Qed.

Lemma collect_well_formed ts lines :
  Forall (well_formed (length lines)) (collect ts lines).
Proof.
  rewrite collect_located. apply Forall_forall. intros s Hs.
  apply in_flat_map in Hs. destruct Hs as (t & _ & Hs).
  destruct (located t lines) as [s'|] eqn:E; simpl in Hs; [|contradiction].
  destruct Hs as [<-|[]]. eapply located_well_formed, E.
Qed.

(** Two overlapping spans, sorted and removed one after the other. *)
Lemma excise_overlapping_pair (A : Type) (doc : list A) a b :
  well_formed (length doc) a -> well_formed (length doc) b ->
  fst a <= fst b -> fst b < snd a ->
  excise [a; b] doc = firstn (fst a) doc ++ skipn (snd a + size b) doc.
Proof.
  destruct a as [s1 e1], b as [s2 e2]. unfold well_formed, size.
  simpl fst; simpl snd. intros [Ha1 Ha2] [Hb1 Hb2] Hs Ho.
  unfold excise. simpl sort_reverse.
  destruct (span_leb (s2, e2) (s1, e1)) eqn:E.
  - apply span_leb_spec in E. simpl in E.
    assert (s1 = s2) as -> by lia.
    unfold remove_loop. simpl fold_left.
    rewrite !del_slice_ordered by lia.
    rewrite firstn_app, skipn_app, length_firstn, Nat.min_l by lia.
    rewrite firstn_firstn, Nat.min_id.
    replace (s2 - s2) with 0 by lia. simpl.
    rewrite app_nil_r.
    rewrite (@skipn_all2 _ e2 (firstn s2 doc))
      by (rewrite length_firstn; lia).
    simpl. rewrite skipn_skipn. f_equal. f_equal. lia.
  - unfold remove_loop. simpl fold_left.
    rewrite !del_slice_ordered by lia.
    rewrite firstn_app, skipn_app, length_firstn, Nat.min_l by lia.
    rewrite firstn_firstn, Nat.min_l by lia.
    replace (s1 - s2) with 0 by lia. simpl.
    rewrite app_nil_r.
    rewrite (@skipn_all2 _ e1 (firstn s2 doc))
      by (rewrite length_firstn; lia).
    simpl. rewrite skipn_skipn. f_equal. f_equal. lia.
Qed.

(** A block that no scheduled span touches stays in the retained lines. *)
Lemma retained_block (A : Type) (doc : list A) spans k e :
  k <= e -> e <= length doc ->
  (forall s, In s spans -> overlap s (k, e) = false) ->
  retained spans doc
  = retained spans (firstn k doc)
    ++ slice doc k e
    ++ retained_from e spans (skipn e doc).
Proof.
  intros Hke He Hfree. unfold retained, slice.
  rewrite <- (firstn_skipn k doc) at 1.
  rewrite retained_from_app, length_firstn, Nat.min_l by lia. simpl.
  f_equal.
  rewrite <- (firstn_skipn (e - k) (skipn k doc)) at 1.
  rewrite retained_from_app, length_firstn, length_skipn, Nat.min_l by lia.
  rewrite skipn_skipn. replace (e - k + k) with e by lia.
  replace (k + (e - k)) with e by lia.
  f_equal. apply retained_from_uncovered.
  intros i Hi. rewrite length_firstn, length_skipn in Hi.
  destruct (covered spans i) eqn:E; [|reflexivity].
  unfold covered in E.
  apply existsb_exists in E. destruct E as (s & Hs & Hin).
  apply andb_true_iff in Hin. destruct Hin as [H1 H2].
  apply Nat.leb_le in H1. apply Nat.ltb_lt in H2.
  specialize (Hfree s Hs). apply overlap_spec in Hfree.
  simpl in Hfree. lia.
Qed.

Lemma nothing_located ts lines :
  (forall t, In t ts -> located t lines = None) ->
  flat_map (fun t => spans_of (located t lines)) ts = [].
Proof.
  induction ts as [|t ts IH]; intros Hall; [reflexivity|].
  simpl. rewrite (Hall t) by (left; reflexivity).
  simpl. apply IH. intros t' Hin. apply Hall. right. exact Hin.
Qed.

(** **** C4 (as the script has it).  No overlap check takes place when the
    list of sections is built: the sections are only sorted in descending
    order, a permutation that merges and drops nothing, and each is deleted
    in turn.  For two overlapping spans [a] and [b] inside the document,
    with [a] starting first and [b] starting before [a] ends, the loop
    removes [size a + size b] lines from the start of [a] on. *)
Theorem overlapping_pair_both_removed (A : Type) (doc : list A)
        (spans : list span) (a b : span) :
  well_formed (length doc) a -> well_formed (length doc) b ->
  fst a <= fst b -> fst b < snd a ->
  Permutation (sort_reverse spans) spans
  /\ StronglySorted desc (sort_reverse spans)
  /\ overlap a b = true
  /\ excise [a; b] doc = firstn (fst a) doc ++ skipn (snd a + size b) doc.
Proof.
  intros Ha Hb Hs Ho. split; [apply sort_reverse_perm|].
  split; [apply sort_reverse_sorted|]. split.
  - unfold overlap. destruct Ha, Hb.
    apply andb_true_iff. split; apply Nat.ltb_lt; lia.
  - apply excise_overlapping_pair; assumption.
Qed.

Lemma overlapping_pair_both_removed_witness :
  let doc := [0; 1; 2; 3; 4; 5; 6; 7; 8] in
  Permutation (sort_reverse [(0, 6); (3, 5)]) [(0, 6); (3, 5)]
  /\ StronglySorted desc (sort_reverse [(0, 6); (3, 5)])
  /\ overlap (0, 6) (3, 5) = true
  /\ excise [(0, 6); (3, 5)] doc
     = firstn 0 doc ++ skipn (6 + size (3, 5)) doc.
Proof.
  intros doc.
  apply (@overlapping_pair_both_removed nat doc [(0, 6); (3, 5)]
           (0, 6) (3, 5)); unfold well_formed; simpl; lia.
Defined.

(** C4, as stated, does not hold of the script: the scan of the first
    function runs into the second one, the two sections overlap, and the
    run still deletes both, taking two lines that belong to neither. *)
Lemma overlapping_sections_are_not_rejected :
  let lines :=
    map lit [ "bool UI::DetectEdgeHover(int x) {";
              "  char c = '{';";
              "}";
              "void UI::UpdateCursor() {";
              "  char d = '}';";
              "}";
              "int keep_a;";
              "int keep_b;";
              "int tail;" ]%string in
  remove_sections lines = [(0, 6); (3, 5)]
  /\ overlap (0, 6) (3, 5) = true
  /\ sort_reverse (remove_sections lines) = [(3, 5); (0, 6)]
  /\ clean_ui lines = [lit "int tail;"].
Proof. vm_compute. repeat split. Qed.

Lemma del_slice_le (A : Type) (l : list A) s e :
  length (del_slice l s e) <= length l.
Proof.
  unfold del_slice. destruct (s <=? e) eqn:E; [|lia].
  apply Nat.leb_le in E.
  rewrite length_app, length_firstn, length_skipn. lia.
Qed.

Lemma remove_loop_le (A : Type) spans :
  forall doc : list A, length (remove_loop spans doc) <= length doc.
Proof.
  induction spans as [|s spans IH]; intros doc; [simpl; lia|].
  rewrite remove_loop_cons.
  pose proof (IH (del_slice doc (fst s) (snd s))).
  pose proof (del_slice_le doc (fst s) (snd s)). lia.
Qed.

(** A section that is scheduled takes lines away. *)
Lemma located_shortens lines :
  remove_sections lines <> [] -> length (clean_ui lines) < length lines.
Proof.
  intros Hne. unfold clean_ui, excise.
  pose proof (sort_reverse_perm (remove_sections lines)) as Hp.
  destruct (sort_reverse (remove_sections lines)) as [|s0 rest].
  - apply Permutation_nil in Hp. congruence.
  - rewrite remove_loop_cons.
    assert (well_formed (length lines) s0) as [H1 H2].
    { pose proof (collect_well_formed targets lines) as Hwf.
      rewrite Forall_forall in Hwf. apply Hwf.
      eapply Permutation_in; [exact Hp|left; reflexivity]. }
    pose proof (remove_loop_le rest (del_slice lines (fst s0) (snd s0))).
    pose proof (@del_slice_length _ lines (fst s0) (snd s0)).
    lia.
Qed.

Lemma located_none_of_nil ts lines :
  flat_map (fun t => spans_of (located t lines)) ts = [] ->
  forall t, In t ts -> located t lines = None.
Proof.
  induction ts as [|t0 ts IH]; intros H t Hin; [contradiction|].
  simpl in H. apply app_eq_nil in H. destruct H as [H0 Hts].
  destruct Hin as [<-|Hin].
  - destruct (located t0 lines); [discriminate|reflexivity].
  - apply IH; assumption.
Qed.

(** **** C5 (as the script has it).  A target whose boundary is not found,
    because no line holds its signature or because the scan window ends
    before the balance returns to zero, adds no section and is passed over:
    the run goes on with the sections of the other targets and writes the
    document.  The document is written back unchanged when no target at all
    is located, and only then: a section that is scheduled always takes
    lines away. *)
Theorem unlocated_target_is_skipped (lines : list text)
        (ts1 ts2 : list target) (t : target) :
  located t lines = None ->
  (first_line_with (fst t) lines 0 = None
   \/ exists i, first_line_with (fst t) lines 0 = Some i
                /\ scan_block lines i (snd t) = None)
  /\ collect (ts1 ++ t :: ts2) lines = collect (ts1 ++ ts2) lines
  /\ (targets = ts1 ++ t :: ts2 ->
      clean_ui lines = excise (collect (ts1 ++ ts2) lines) lines)
  /\ (targets = ts1 ++ t :: ts2 ->
      (clean_ui lines = lines <->
       forall t', In t' (ts1 ++ ts2) -> located t' lines = None)).
Proof.
  intros Hnone.
  assert (collect (ts1 ++ t :: ts2) lines = collect (ts1 ++ ts2) lines)
    as Hskip.
  { rewrite !collect_located, !flat_map_app. simpl.
    rewrite Hnone. reflexivity. }
  split; [|split; [exact Hskip|split]].
  - unfold located in Hnone.
    destruct (first_line_with (fst t) lines 0) as [i|]; [|left; reflexivity].
    right. exists i. split; [reflexivity|].
    destruct (scan_block lines i (snd t)); [discriminate|reflexivity].
  - intros Ht. unfold clean_ui, remove_sections. rewrite Ht, Hskip.
    reflexivity.
  - intros Ht. split.
    + intros Hsame.
      apply located_none_of_nil. rewrite <- collect_located, <- Hskip, <- Ht.
      change (remove_sections lines = []).
      destruct (remove_sections lines) as [|s0 rest] eqn:E; [reflexivity|].
      exfalso.
      assert (remove_sections lines <> []) as Hne by (rewrite E; discriminate).
      apply located_shortens in Hne. rewrite Hsame in Hne. lia.
    + intros Hall. unfold clean_ui, remove_sections. rewrite Ht, Hskip.
      rewrite collect_located.
      rewrite (nothing_located _ _ Hall). reflexivity.
Qed.

Lemma unlocated_target_is_skipped_witness :
  let lines :=
    map lit [ "bool UI::DetectEdgeHover() {"; "}";
              "void UI::UpdateCursor() {"; "int x;" ]%string in
  let t := (lit "void UI::RenderCanvasPanel(", 2000) in
  let ts1 := [ (lit "bool UI::DetectEdgeHover(", 100) ] in
  let ts2 := [ (lit "void UI::LoadEyedropperCursor(", 100);
               (lit "void UI::UpdateCursor(", 100) ] in
  collect (ts1 ++ t :: ts2) lines = collect (ts1 ++ ts2) lines
  /\ clean_ui lines = excise (collect (ts1 ++ ts2) lines) lines.
Proof.
  intros lines t ts1 ts2.
  destruct (@unlocated_target_is_skipped lines ts1 ts2 t eq_refl)
    as (_ & H1 & H2 & _).
  split; [exact H1|exact (H2 eq_refl)].
Defined.

(** C5, as stated, does not hold of the script: one signature is missing,
    the block of another never closes, and the run still removes the block
    it found and writes the changed document. *)
Lemma missing_boundary_does_not_abort :
  let lines :=
    map lit [ "bool UI::DetectEdgeHover() {"; "}";
              "void UI::UpdateCursor() {"; "int x;" ]%string in
  first_line_with (lit "void UI::RenderCanvasPanel(") lines 0 = None
  /\ first_line_with (lit "void UI::UpdateCursor(") lines 0 = Some 2
  /\ scan_block lines 2 100 = None
  /\ remove_sections lines = [(0, 2)]
  /\ clean_ui lines = map lit ["void UI::UpdateCursor() {"; "int x;"]%string
  /\ clean_ui lines <> lines.
Proof. vm_compute. repeat split. discriminate. Qed.

(** **** C10 (as the script has it).  For each target only the earliest line
    that holds the signature is looked at: the section scheduled for the
    target, if any, starts there, and the list of sections has at most one
    span for each target.  A block that starts at a later line with the
    signature stays in the written document, line for line, when the
    scheduled sections do not overlap one another nor that block. *)
Theorem only_first_occurrence_scheduled (lines : list text) (t : target)
        (i : nat) :
  first_line_with (fst t) lines 0 = Some i ->
  (exists l, nth_error lines i = Some l /\ contains (fst t) l = true)
  /\ (forall k l, k < i -> nth_error lines k = Some l ->
                  contains (fst t) l = false)
  /\ (forall s, located t lines = Some s -> fst s = i)
  /\ remove_sections lines
     = flat_map (fun t' => spans_of (located t' lines)) targets
  /\ (forall k l e,
        i < k -> nth_error lines k = Some l -> contains (fst t) l = true ->
        scan_block lines k (snd t) = Some e ->
        pairwise_disjoint (remove_sections lines) ->
        (forall s, In s (remove_sections lines) -> overlap s (k, e) = false) ->
        clean_ui lines
        = retained (remove_sections lines) (firstn k lines)
          ++ slice lines k e
          ++ retained_from e (remove_sections lines) (skipn e lines)).
Proof.
  intros Hfirst.
  destruct (first_line_with_spec _ _ _ Hfirst) as (Hr & Hline & Hmin).
  rewrite Nat.sub_0_r in *.
  split; [exact Hline|]. split; [exact Hmin|]. split; [|split].
  - intros s Hs. unfold located in Hs. rewrite Hfirst in Hs.
    destruct (scan_block lines i (snd t)); [|discriminate].
    injection Hs as <-. reflexivity.
  - apply collect_located.
  - intros k l e Hk Hl Hc Hscan Hdis Hfree.
    apply scan_block_range in Hscan.
    unfold clean_ui.
    rewrite excise_retained;
      [|apply collect_well_formed|exact Hdis].
    apply retained_block; try lia. exact Hfree.
Qed.

Lemma only_first_occurrence_scheduled_witness :
  let lines :=
    map lit [ "bool UI::DetectEdgeHover(int a) {"; "}"; "int keep;";
              "bool UI::DetectEdgeHover(int a) {"; "  return 1;"; "}";
              "int tail;" ]%string in
  let t := (lit "bool UI::DetectEdgeHover(", 100) in
  clean_ui lines
  = retained (remove_sections lines) (firstn 3 lines)
    ++ slice lines 3 6
    ++ retained_from 6 (remove_sections lines) (skipn 6 lines).
Proof.
  intros lines t.
  destruct (@only_first_occurrence_scheduled lines t 0 eq_refl)
    as (_ & _ & _ & _ & H).
  apply (H 3 (lit "bool UI::DetectEdgeHover(int a) {")).
  - lia.
  - reflexivity.
  - reflexivity.
  - reflexivity.
  - vm_compute. repeat constructor.
  - intros s Hs. vm_compute in Hs. destruct Hs as [<-|[]]. reflexivity.
Defined.

(** C10, as stated, does not hold of the script: the signature comes a
    second time inside the first block, in a comment that holds a block of
    its own, and that later block leaves the document with the first one. *)
Lemma later_occurrence_inside_first_block_is_removed :
  let lines :=
    map lit [ "bool UI::DetectEdgeHover(int a) {";
              "  /* bool UI::DetectEdgeHover(int a) { return a; } */";
              "  return a > 0;";
              "}";
              "int keep;" ]%string in
  let sig := lit "bool UI::DetectEdgeHover(" in
  first_line_with sig lines 0 = Some 0
  /\ contains sig (nth 1 lines []) = true
  /\ scan_block lines 1 100 = Some 2
  /\ remove_sections lines = [(0, 4)]
  /\ clean_ui lines = [lit "int keep;"]
  /\ ~ In (nth 1 lines []) (clean_ui lines).
Proof.
  vm_compute. repeat split.
  intros [H|[]]. discriminate.
Qed.

End CleanUiRun.

(* ================================================================= *)
(** ** Facts about the text primitives *)

Module TextFacts.

Lemma ascii_eqb_false a b : a <> b -> Ascii.eqb a b = false.
Proof. intros H. apply Ascii.eqb_neq. exact H. Qed.

Lemma prefixb_app p r : prefixb p (p ++ r) = true.
Proof.
  induction p as [|a p IH]; [reflexivity|].
  simpl. rewrite Ascii.eqb_refl. exact IH.
Qed.

Lemma prefixb_split p :
  forall s, prefixb p s = true -> exists r, s = p ++ r.
Proof.
  induction p as [|a p IH]; intros s H.
  - exists s. reflexivity.
  - destruct s as [|b s]; [discriminate|].
    simpl in H. apply andb_true_iff in H. destruct H as [Hab Hp].
    apply Ascii.eqb_eq in Hab. subst b.
    destruct (IH s Hp) as [r ->]. exists r. reflexivity.
Qed.

Lemma prefixb_length p s : prefixb p s = true -> length p <= length s.
Proof.
  intros H. destruct (prefixb_split _ _ H) as [r ->].
  rewrite length_app. lia.
Qed.

(** A character that a pattern does not hold stops every match of it. *)
Lemma prefixb_barrier p c :
  absent c p = true ->
  forall a b, prefixb p (a ++ c :: b) = prefixb p a.
Proof.
  induction p as [|o p IH]; intros Hc a b; [reflexivity|].
  unfold absent in Hc. simpl in Hc.
  apply negb_true_iff, orb_false_iff in Hc. destruct Hc as [Hco Hcp].
  destruct a as [|x a]; simpl.
  - rewrite Ascii.eqb_sym, Hco. reflexivity.
  - rewrite IH; [reflexivity|]. unfold absent. rewrite Hcp. reflexivity.
Qed.

Lemma contains_prefix m s : prefixb m s = true -> contains m s = true.
Proof.
  intros H. destruct s; simpl contains; rewrite H; reflexivity.
Qed.

Lemma contains_app m pre post : contains m (pre ++ m ++ post) = true.
Proof.
  induction pre as [|c pre IH].
  - simpl app. apply contains_prefix, prefixb_app.
  - simpl. rewrite IH. apply orb_true_r.
Qed.

Lemma contains_split m :
  forall s, contains m s = true -> exists pre post, s = pre ++ m ++ post.
Proof.
  induction s as [|c s IH]; intros H.
  - simpl in H. rewrite orb_false_r in H.
    destruct (prefixb_split _ _ H) as [r Hr]. exists [], r. exact Hr.
  - simpl in H. apply orb_true_iff in H. destruct H as [H|H].
    + destruct (prefixb_split m (c :: s) H) as [r Hr]. exists [], r. exact Hr.
    + destruct (IH H) as (pre & post & ->). exists (c :: pre), post.
      reflexivity.
Qed.

Lemma contains_app_r m p s : contains m s = true -> contains m (p ++ s) = true.
Proof.
  intros H. destruct (contains_split _ _ H) as (pre & post & ->).
  rewrite app_assoc. apply contains_app.
Qed.

(** An occurrence that starts with a character [p] does not hold starts
    after [p]. *)
Lemma contains_skip_absent c m p r :
  absent c p = true -> contains (c :: m) (p ++ r) = contains (c :: m) r.
Proof.
  induction p as [|x p IH]; intros H; [reflexivity|].
  unfold absent in H. simpl in H.
  apply negb_true_iff, orb_false_iff in H. destruct H as [Hx Hp].
  change ((x :: p) ++ r) with (x :: (p ++ r)).
  simpl contains. rewrite Hx. simpl.
  apply IH. unfold absent. rewrite Hp. reflexivity.
Qed.

(** *** [str.replace] *)

Lemma prefixb_nil_r p : p <> [] -> prefixb p [] = false.
Proof. destruct p; [contradiction|reflexivity]. Qed.

Lemma replace_go_skip old new :
  forall w s, replace_go old new (length w) (w ++ s) = replace_go old new 0 s.
Proof.
  induction w as [|c w IH]; intros s; [reflexivity|].
  simpl. apply IH.
Qed.

Lemma replace_go_match old new s :
  old <> [] ->
  replace_go old new 0 (old ++ s) = new ++ replace_go old new 0 s.
Proof.
  intros H. destruct old as [|o r]; [contradiction|].
  pose proof (prefixb_app (o :: r) s) as Hp.
  simpl app in *. cbn [replace_go]. rewrite Hp.
  replace (length (o :: r) - 1) with (length r) by (simpl; lia).
  rewrite replace_go_skip. reflexivity.
Qed.

Lemma replace_not_empty old new s :
  old <> [] -> replace old new s = replace_go old new 0 s.
Proof. unfold replace. destruct old; [contradiction|reflexivity]. Qed.

Section Replace.
Variables old new : text.
Hypothesis old_not_empty : old <> [].

Lemma replace_is_go s : replace old new s = replace_go old new 0 s.
Proof. apply replace_not_empty, old_not_empty. Qed.

Lemma replace_nil : replace old new [] = [].
Proof. rewrite replace_is_go. reflexivity. Qed.

(** A match at the head is replaced, and the scan goes on after it. *)
Lemma replace_match s :
  replace old new (old ++ s) = new ++ replace old new s.
Proof.
  rewrite !replace_is_go. apply replace_go_match, old_not_empty.
Qed.

Lemma replace_no_match c s :
  prefixb old (c :: s) = false ->
  replace old new (c :: s) = c :: replace old new s.
Proof.
  intros H. rewrite !replace_is_go. simpl replace_go.
  simpl in H. rewrite H. reflexivity.
Qed.

(** The leftmost occurrence of [old] is replaced by [new]. *)
Lemma replace_leftmost :
  forall s,
    contains old s = true ->
    exists pre post,
      s = pre ++ old ++ post
      /\ (forall k, k < length pre -> prefixb old (skipn k s) = false)
      /\ replace old new s = pre ++ new ++ replace old new post.
Proof.
  induction s as [|c s IH]; intros H.
  - simpl in H. rewrite orb_false_r in H.
    rewrite (prefixb_nil_r old_not_empty) in H. discriminate.
  - destruct (prefixb old (c :: s)) eqn:E.
    + destruct (prefixb_split _ _ E) as [r Hr].
      exists [], r. split; [exact Hr|]. split; [simpl; lia|].
      rewrite Hr. apply replace_match.
    + simpl in H. simpl in E. rewrite E in H. simpl in H.
      destruct (IH H) as (pre & post & Hs & Hleft & Hrep).
      exists (c :: pre), post. split; [rewrite Hs; reflexivity|]. split.
      * intros [|k] Hk; [exact E|]. simpl. apply Hleft. simpl in Hk. lia.
      * rewrite replace_no_match by exact E. rewrite Hrep. reflexivity.
Qed.

(** The scan passes a character that [old] does not hold, and starts
    afresh behind it. *)
Lemma replace_go_barrier c :
  absent c old = true ->
  forall a k b,
    k <= length a ->
    replace_go old new k (a ++ c :: b)
    = replace_go old new k a ++ c :: replace_go old new 0 b.
Proof.
  intros Hc. induction a as [|x a IH]; intros k b Hk.
  - simpl in Hk. replace k with 0 by lia.
    simpl app. cbn [replace_go].
    pose proof (prefixb_barrier old c Hc [] b) as Hp. simpl app in Hp.
    rewrite Hp, (prefixb_nil_r old_not_empty). reflexivity.
  - destruct k as [|k].
    + simpl app. cbn [replace_go].
      pose proof (prefixb_barrier old c Hc (x :: a) b) as Hp.
      simpl app in Hp. rewrite Hp.
      destruct (prefixb old (x :: a)) eqn:E.
      * rewrite IH; [rewrite app_assoc; reflexivity|].
        apply prefixb_length in E. simpl in E. lia.
      * rewrite IH by lia. reflexivity.
    + simpl. apply IH. simpl in Hk. lia.
Qed.

Lemma replace_barrier c a b :
  absent c old = true ->
  replace old new (a ++ c :: b)
  = replace old new a ++ c :: replace old new b.
Proof.
  intros Hc. rewrite !replace_is_go. apply replace_go_barrier; [exact Hc|lia].
Qed.

(** When the output starts with a character that [new] does not start
    with, that character was read from the input and no match stood
    there. *)
Lemma replace_head n0 nr c :
  new = n0 :: nr -> n0 <> c ->
  forall s out,
    replace old new s = c :: out ->
    exists s', s = c :: s' /\ replace old new s' = out.
Proof.
  intros Hnew Hne s out H. destruct s as [|x s].
  - rewrite replace_nil in H. discriminate.
  - destruct (prefixb old (x :: s)) eqn:E.
    + destruct (prefixb_split _ _ E) as [r Hr].
      rewrite Hr, replace_match, Hnew in H.
      simpl in H. injection H as H _. contradiction.
    + rewrite replace_no_match in H by exact E.
      injection H as -> H. exists s. split; [reflexivity|exact H].
Qed.

Lemma replace_literal_prefix n0 nr :
  new = n0 :: nr ->
  forall m, absent n0 m = true ->
  forall s out,
    replace old new s = m ++ out ->
    exists s', s = m ++ s' /\ replace old new s' = out.
Proof.
  intros Hnew. induction m as [|c m IH]; intros Ha s out H.
  - exists s. split; [reflexivity|exact H].
  - unfold absent in Ha. simpl in Ha.
    apply negb_true_iff, orb_false_iff in Ha. destruct Ha as [Hc Hm].
    simpl app in H.
    destruct (@replace_head n0 nr c Hnew) with (s := s) (out := m ++ out)
      as (s1 & -> & H1); [|exact H|].
    { intros ->. rewrite Ascii.eqb_refl in Hc. discriminate. }
    destruct (IH (eq_trans (f_equal negb Hm) eq_refl) s1 out H1)
      as (s2 & -> & H2).
    exists s2. split; [reflexivity|exact H2].
Qed.

(** The replacement does not bring about a text [c :: m] when [new] does
    not hold [c] and [m] does not hold the first character of [new]. *)
Lemma replace_creates_nothing n0 nr c m :
  new = n0 :: nr -> absent c new = true -> absent n0 m = true ->
  forall s,
    contains (c :: m) (replace old new s) = true ->
    contains (c :: m) s = true.
Proof.
  intros Hnew Hc Hm s.
  remember (length s) as n eqn:Hn. revert s Hn.
  induction n as [n IH] using lt_wf_ind. intros s Hn H.
  destruct s as [|x s].
  - rewrite replace_nil in H. discriminate.
  - destruct (prefixb old (x :: s)) eqn:E.
    + destruct (prefixb_split _ _ E) as [r Hr]. rewrite Hr in *.
      rewrite replace_match, contains_skip_absent in H by exact Hc.
      apply contains_app_r. apply (IH (length r)); [|reflexivity|exact H].
      rewrite length_app in Hn.
      assert (length old <> 0)
        by (destruct old; [contradiction|discriminate]).
      lia.
    + rewrite replace_no_match in H by exact E.
      simpl contains in H. apply orb_true_iff in H. destruct H as [H|H].
      * apply andb_true_iff in H. destruct H as [Hx Hp].
        apply Ascii.eqb_eq in Hx. subst x.
        destruct (prefixb_split _ _ Hp) as [out Hout].
        destruct (@replace_literal_prefix n0 nr Hnew m Hm s out Hout)
          as (s' & -> & _).
        apply contains_prefix. apply (prefixb_app (c :: m) s').
      * simpl contains. rewrite (IH (length s)); [apply orb_true_r| |reflexivity|exact H].
        simpl in Hn. lia.
Qed.

End Replace.

Lemma contains_cons_false m c s :
  contains m (c :: s) = false ->
  prefixb m (c :: s) = false /\ contains m s = false.
Proof.
  intros H. simpl contains in H. apply orb_false_iff in H. exact H.
Qed.

(** A text that does not hold [old] is not changed by the replacement. *)
Lemma replace_absent old new :
  old <> [] ->
  forall s, contains old s = false -> replace old new s = s.
Proof.
  intros Hne. induction s as [|c s IH]; intros H.
  - apply replace_nil, Hne.
  - apply contains_cons_false in H. destruct H as [Hp Hc].
    rewrite replace_no_match by assumption.
    rewrite IH by assumption. reflexivity.
Qed.

End TextFacts.

(* ================================================================= *)
(** ** The adaptation loops of extract_canvas.py *)

Module AdaptFacts.
Import ExtractCanvas TextFacts.

Lemma append_adapted_map adapt lines :
  forall output,
    append_adapted adapt lines output = output ++ map adapt lines.
Proof.
  unfold append_adapted.
  induction lines as [|l lines IH]; intros output; simpl.
  - rewrite app_nil_r. reflexivity.
  - rewrite IH, <- app_assoc. reflexivity.
Qed.

Lemma extract_canvas_layout ui_lines :
  extract_canvas ui_lines
  = header
    ++ map adapt_helper (slice ui_lines helper_start helper_end)
    ++ panel_head
    ++ map adapt_detect (slice ui_lines detect_start detect_end)
    ++ [[newline]]
    ++ map adapt_render (slice ui_lines render_start render_end)
    ++ footer.
Proof.
  unfold extract_canvas. cbv zeta.
  rewrite !append_adapted_map, <- !app_assoc. reflexivity.
Qed.

(** The marker is cut by three characters that no rule looks for, and the
    rules leave the pieces between them alone. *)
Lemma defer_marker_pieces :
  defer_marker
  = "S"%char :: lit "how" ++ "T"%char :: lit "oast" ++ ["("%char].
Proof. reflexivity. Qed.

Lemma replace_keeps_marker old new :
  old <> [] ->
  absent "S"%char old = true ->
  absent "T"%char old = true ->
  absent "("%char old = true ->
  replace old new (lit "how") = lit "how" ->
  replace old new (lit "oast") = lit "oast" ->
  forall pre post,
    replace old new (pre ++ defer_marker ++ post)
    = replace old new pre ++ defer_marker ++ replace old new post.
Proof.
  intros Hne HS HT HP Hhow Hoast pre post.
  rewrite defer_marker_pieces.
  change (pre ++ ("S"%char :: lit "how" ++ "T"%char :: lit "oast"
                   ++ ["("%char]) ++ post)
    with (pre ++ "S"%char :: (lit "how" ++ "T"%char
                   :: (lit "oast" ++ "("%char :: post))).
  rewrite (@replace_barrier old new Hne "S"%char) by exact HS.
  rewrite (@replace_barrier old new Hne "T"%char) by exact HT.
  rewrite (@replace_barrier old new Hne "("%char) by exact HP.
  rewrite Hhow, Hoast. reflexivity.
Qed.

Lemma rule_keeps_marker r :
  In r render_rules ->
  forall pre post,
    replace (fst r) (snd r) (pre ++ defer_marker ++ post)
    = replace (fst r) (snd r) pre ++ defer_marker
      ++ replace (fst r) (snd r) post.
Proof.
  intros Hr.
  assert (fst r <> [] /\ absent "S"%char (fst r) = true
          /\ absent "T"%char (fst r) = true
          /\ absent "("%char (fst r) = true
          /\ replace (fst r) (snd r) (lit "how") = lit "how"
          /\ replace (fst r) (snd r) (lit "oast") = lit "oast")
    as (H1 & H2 & H3 & H4 & H5 & H6).
  { destruct Hr as [<-|[<-|[<-|[]]]];
      (split; [discriminate|vm_compute; repeat split]). }
  apply replace_keeps_marker; assumption.
Qed.

Lemma apply_rules_keep_marker rules :
  (forall r, In r rules -> In r render_rules) ->
  forall pre post,
    apply_rules rules (pre ++ defer_marker ++ post)
    = apply_rules rules pre ++ defer_marker ++ apply_rules rules post.
Proof.
  unfold apply_rules.
  induction rules as [|r rules IH]; intros Hin pre post; [reflexivity|].
  cbn [fold_left].
  rewrite rule_keeps_marker by (apply Hin; left; reflexivity).
  apply IH. intros r' Hr'. apply Hin. right. exact Hr'.
Qed.

(** A line with the marker still has it after the literal rules. *)
Lemma marker_survives_rules line :
  contains defer_marker line = true ->
  contains defer_marker (apply_rules render_rules line) = true.
Proof.
  intros H. destruct (contains_split _ _ H) as (pre & post & ->).
  rewrite apply_rules_keep_marker by auto.
  apply contains_app.
Qed.

Lemma rule_creates_no_marker r :
  In r render_rules ->
  forall s,
    contains defer_marker (replace (fst r) (snd r) s) = true ->
    contains defer_marker s = true.
Proof.
  intros Hr s.
  change defer_marker with ("S"%char :: lit "howToast(").
  assert (fst r <> []) as Hne
    by (destruct Hr as [<-|[<-|[<-|[]]]]; discriminate).
  destruct Hr as [<-|[<-|[<-|[]]]]; cbn [fst snd] in *.
  - apply (@replace_creates_nothing _ _ Hne
             "v"%char (lit "oid CanvasPanel::Render")); reflexivity.
  - apply (@replace_creates_nothing _ _ Hne
             "*"%char (lit "showPropertiesPanel = !(*showPropertiesPanel)"));
      reflexivity.
  - apply (@replace_creates_nothing _ _ Hne
             "*"%char (lit "layoutInitialized = false")); reflexivity.
Qed.

Lemma rules_create_no_marker rules :
  (forall r, In r rules -> In r render_rules) ->
  forall line,
    contains defer_marker (apply_rules rules line) = true ->
    contains defer_marker line = true.
Proof.
  unfold apply_rules.
  induction rules as [|r rules IH]; intros Hin line H; [exact H|].
  cbn [fold_left] in H.
  apply (@rule_creates_no_marker r); [apply Hin; left; reflexivity|].
  apply IH; [|exact H]. intros r' Hr'. apply Hin. right. exact Hr'.
Qed.

(** The marker is on the adapted line exactly when it is on the line. *)
Lemma marker_test_before_rules line :
  contains defer_marker (apply_rules render_rules line)
  = contains defer_marker line.
Proof.
  destruct (contains defer_marker line) eqn:E.
  - apply marker_survives_rules, E.
  - destruct (contains defer_marker (apply_rules render_rules line)) eqn:E';
      [|reflexivity].
    apply rules_create_no_marker in E'; [congruence|auto].
Qed.

(** **** C8.  Every line of a loop is adapted and appended in order, none
    is dropped.  The helper loop and the detect loop apply their one
    literal rule to every line, the render loop its three rules one after
    the other; a literal rule replaces the leftmost occurrence of its text,
    and then those after it, in every line that holds it.  A render line
    that holds [ShowToast(] comes out as the marked placeholder
    [// TODO: Re-enable toast: ] followed by the line as adapted by the
    rules, without its leading blanks; a render line that does not hold it
    comes out as adapted by the rules. *)
Theorem render_lines_adapted :
  (forall adapt lines output,
     append_adapted adapt lines output = output ++ map adapt lines)
  /\ (forall ui_lines,
        extract_canvas ui_lines
        = header
          ++ map adapt_helper (slice ui_lines helper_start helper_end)
          ++ panel_head
          ++ map adapt_detect (slice ui_lines detect_start detect_end)
          ++ [[newline]]
          ++ map adapt_render (slice ui_lines render_start render_end)
          ++ footer)
  /\ (forall line,
        apply_rules render_rules line
        = replace (lit "m_layoutInitialized = false")
            (lit "*layoutInitialized = false")
            (replace (lit "showPropertiesPanel = !showPropertiesPanel")
               (lit "*showPropertiesPanel = !(*showPropertiesPanel)")
               (replace (lit "void UI::RenderCanvasPanel")
                  (lit "void CanvasPanel::Render") line)))
  /\ (forall old new s,
        old <> [] -> contains old s = true ->
        exists pre post,
          s = pre ++ old ++ post
          /\ (forall k, k < length pre -> prefixb old (skipn k s) = false)
          /\ replace old new s = pre ++ new ++ replace old new post)
  /\ (forall line,
        contains defer_marker line = true ->
        adapt_render line
        = defer_prefix ++ lstrip (apply_rules render_rules line))
  /\ (forall line,
        contains defer_marker line = false ->
        adapt_render line = apply_rules render_rules line)
  /\ (forall line,
        adapt_helper line
        = replace (lit "static std::vector") (lit "std::vector") line
        /\ adapt_detect line
           = replace (lit "bool UI::DetectEdgeHover")
               (lit "bool CanvasPanel::DetectEdgeHover") line)
  /\ (forall line,
        contains (lit "static std::vector") line = true ->
        exists pre post,
          line = pre ++ lit "static std::vector" ++ post
          /\ adapt_helper line = pre ++ lit "std::vector" ++ adapt_helper post)
  /\ (forall line,
        contains (lit "bool UI::DetectEdgeHover") line = true ->
        exists pre post,
          line = pre ++ lit "bool UI::DetectEdgeHover" ++ post
          /\ adapt_detect line
             = pre ++ lit "bool CanvasPanel::DetectEdgeHover"
               ++ adapt_detect post)
  /\ (forall line,
        contains (lit "void UI::RenderCanvasPanel") line = true ->
        contains defer_marker line = false ->
        exists pre post,
          line = pre ++ lit "void UI::RenderCanvasPanel" ++ post
          /\ adapt_render line
             = apply_rules (tl render_rules)
                 (pre ++ lit "void CanvasPanel::Render"
                  ++ replace (lit "void UI::RenderCanvasPanel")
                       (lit "void CanvasPanel::Render") post)).
Proof.
  assert (forall line,
            contains defer_marker line = false ->
            adapt_render line = apply_rules render_rules line) as Helse.
  { intros line H. unfold adapt_render. cbv zeta.
    rewrite marker_test_before_rules, H. reflexivity. }
  split; [intros; apply append_adapted_map|].
  split; [apply extract_canvas_layout|].
  split; [reflexivity|].
  split; [intros old new s Hne Hc; apply replace_leftmost; assumption|].
  split.
  { intros line H. unfold adapt_render. cbv zeta.
    rewrite (marker_survives_rules _ H). reflexivity. }
  split; [exact Helse|].
  split; [intros line; split; reflexivity|].
  split.
  { intros line H.
    assert (lit "static std::vector" <> []) as Hne by discriminate.
    destruct (@replace_leftmost (lit "static std::vector") (lit "std::vector")
                Hne line H) as (pre & post & H1 & _ & H2).
    exists pre, post. split; [exact H1|exact H2]. }
  split.
  { intros line H.
    assert (lit "bool UI::DetectEdgeHover" <> []) as Hne by discriminate.
    destruct (@replace_leftmost (lit "bool UI::DetectEdgeHover")
                (lit "bool CanvasPanel::DetectEdgeHover")
                Hne line H) as (pre & post & H1 & _ & H2).
    exists pre, post. split; [exact H1|exact H2]. }
  intros line H Hm.
  assert (lit "void UI::RenderCanvasPanel" <> []) as Hne by discriminate.
  destruct (@replace_leftmost (lit "void UI::RenderCanvasPanel")
              (lit "void CanvasPanel::Render")
              Hne line H) as (pre & post & H1 & _ & H2).
  exists pre, post. split; [exact H1|].
  rewrite (Helse line Hm). unfold apply_rules, render_rules.
  cbn [fold_left tl fst snd]. rewrite H2. reflexivity.
Qed.

Lemma render_lines_adapted_witness :
  adapt_render
    (lit "    ShowToast(msg); showPropertiesPanel = !showPropertiesPanel;")
  = lit ("// TODO: Re-enable toast: ShowToast(msg); "
         ++ "*showPropertiesPanel = !(*showPropertiesPanel);")
  /\ adapt_render (lit "    m_layoutInitialized = false;")
     = lit "    *layoutInitialized = false;"
  /\ (exists pre post,
        lit "static std::vector<int> f();"
        = pre ++ lit "static std::vector" ++ post
        /\ adapt_helper (lit "static std::vector<int> f();")
           = pre ++ lit "std::vector" ++ adapt_helper post).
Proof.
  destruct render_lines_adapted
    as (_ & _ & _ & _ & H & Helse & _ & Hhelper & _).
  split; [rewrite H; reflexivity|].
  split; [rewrite Helse; reflexivity|].
  apply Hhelper. reflexivity.
Defined.

End AdaptFacts.

(* ================================================================= *)
(** ** Facts about the substitution of update_refs.py *)

Module RewriteFacts.
Import UpdateRefs TextFacts.

#[local] Arguments Ascii.eqb : simpl never.
#[local] Arguments is_word : simpl never.

Lemma hd_error_app_l (B : Type) (l x : list B) :
  l <> [] -> hd_error (l ++ x) = hd_error l.
Proof. destruct l; [contradiction|reflexivity]. Qed.

Lemma prefixb_dot_hd prev :
  prefixb [dot] prev
  = match hd_error prev with
    | Some c => Ascii.eqb dot c
    | None => false
    end.
Proof.
  destruct prev as [|p prev]; simpl; [reflexivity|].
  apply andb_true_r.
Qed.

Lemma dot_not_word : is_word dot = false.
Proof. reflexivity. Qed.

Lemma identifier_cons v :
  is_identifier v = true ->
  exists c r, v = c :: r /\ is_word c = true /\ forallb is_word r = true.
Proof.
  destruct v as [|c r]; [discriminate|].
  simpl. intros H. apply andb_true_iff in H. destruct H.
  exists c, r. auto.
Qed.

Lemma identifier_words v : is_identifier v = true -> forallb is_word v = true.
Proof. destruct v; [discriminate|intros H; exact H]. Qed.

Lemma identifier_not_nil v : is_identifier v = true -> v <> [].
Proof. destruct v; [discriminate|discriminate]. Qed.

Lemma words_absent c v :
  is_word c = false -> forallb is_word v = true -> absent c v = true.
Proof.
  intros Hc. unfold absent. induction v as [|x v IH]; intros H; [reflexivity|].
  simpl in *. apply andb_true_iff in H. destruct H as [Hx Hv].
  destruct (Ascii.eqb c x) eqn:E.
  - apply Ascii.eqb_eq in E. subst x. congruence.
  - simpl. apply IH, Hv.
Qed.

(** The character before the end of a match is a word character. *)
Lemma identifier_last_word v prev :
  is_identifier v = true ->
  is_word_opt (hd_error (rev v ++ prev)) = true.
Proof.
  intros Hv. pose proof (identifier_words _ Hv) as Hw.
  pose proof (identifier_not_nil Hv) as Hn.
  destruct (rev v) as [|x r] eqn:E.
  - apply (f_equal (@rev ascii)) in E. rewrite rev_involutive in E.
    simpl in E. contradiction.
  - simpl. rewrite forallb_forall in Hw. apply Hw.
    apply in_rev. rewrite E. left. reflexivity.
Qed.

Section OneVariable.
Variables q var : text.
Hypothesis var_identifier : is_identifier var = true.

(** The first look-behind is implied by the second. *)
Lemma matches_at_dot_only prev s :
  matches_at q var prev s
  = negb (prefixb [dot] prev)
    && word_boundary (hd_error prev) (hd_error s)
    && prefixb var s
    && word_boundary (hd_error (rev var ++ prev))
                     (hd_error (skipn (length var) s)).
Proof.
  unfold matches_at. rewrite rev_app_distr.
  change (rev [dot] ++ rev q) with (dot :: rev q).
  destruct prev as [|p prev]; [reflexivity|].
  cbn [prefixb]. rewrite andb_true_r.
  destruct (Ascii.eqb dot p); [|reflexivity].
  cbn [negb andb]. rewrite andb_false_r. reflexivity.
Qed.

Lemma matches_at_same_hd prev prev' s :
  hd_error prev = hd_error prev' ->
  matches_at q var prev s = matches_at q var prev' s.
Proof.
  intros H. rewrite !matches_at_dot_only, !prefixb_dot_hd, H.
  assert (rev var <> []) as Hr.
  { intros E. apply (f_equal (@rev ascii)) in E.
    rewrite rev_involutive in E.
    exact (identifier_not_nil var_identifier E). }
  rewrite !(hd_error_app_l _ Hr). reflexivity.
Qed.

(** Only the last character before the position matters to the scan. *)
Lemma sub_go_same_hd :
  forall s prev prev' k,
    hd_error prev = hd_error prev' ->
    sub_go q var prev k s = sub_go q var prev' k s.
Proof.
  induction s as [|c s IH]; intros prev prev' k H; [reflexivity|].
  cbn [sub_go]. destruct k as [|k].
  - rewrite (@matches_at_same_hd prev prev' (c :: s) H).
    rewrite (IH (c :: prev) (c :: prev') (length var - 1)) by reflexivity.
    rewrite (IH (c :: prev) (c :: prev') 0) by reflexivity.
    reflexivity.
  - apply IH. reflexivity.
Qed.

Lemma no_match_nonword_start prev s :
  is_word_opt (hd_error s) = false -> matches_at q var prev s = false.
Proof.
  intros H. rewrite matches_at_dot_only.
  destruct (identifier_cons _ var_identifier) as (c & r & -> & Hc & _).
  destruct s as [|x s]; simpl prefixb.
  - rewrite andb_false_r. reflexivity.
  - destruct (Ascii.eqb c x) eqn:E.
    + apply Ascii.eqb_eq in E. subst x. simpl in H. congruence.
    + simpl. rewrite andb_false_r. reflexivity.
Qed.

Lemma no_match_inside_word prev s :
  is_word_opt (hd_error prev) = true -> matches_at q var prev s = false.
Proof.
  intros H. rewrite matches_at_dot_only.
  destruct (is_word_opt (hd_error s)) eqn:E.
  - unfold word_boundary at 1. rewrite H, E. simpl.
    rewrite andb_false_r. reflexivity.
  - rewrite <- matches_at_dot_only. apply no_match_nonword_start, E.
Qed.

Lemma no_match_after_dot prev s :
  hd_error prev = Some dot -> matches_at q var prev s = false.
Proof.
  intros H. rewrite matches_at_dot_only, prefixb_dot_hd, H.
  rewrite Ascii.eqb_refl. reflexivity.
Qed.

Lemma sub_go_no_match prev c s :
  matches_at q var prev (c :: s) = false ->
  sub_go q var prev 0 (c :: s) = c :: sub_go q var (c :: prev) 0 s.
Proof. intros H. cbn [sub_go]. rewrite H. reflexivity. Qed.

Lemma sub_go_skip :
  forall w prev s,
    sub_go q var prev (length w) (w ++ s) = sub_go q var (rev w ++ prev) 0 s.
Proof.
  induction w as [|c w IH]; intros prev s; [reflexivity|].
  simpl. rewrite IH, <- app_assoc. reflexivity.
Qed.

(** No match starts inside a run of word characters. *)
Lemma sub_go_word_run :
  forall w prev s,
    is_word_opt (hd_error prev) = true ->
    forallb is_word w = true ->
    sub_go q var prev 0 (w ++ s) = w ++ sub_go q var (rev w ++ prev) 0 s.
Proof.
  induction w as [|c w IH]; intros prev s Hp Hw; [reflexivity|].
  simpl in Hw. apply andb_true_iff in Hw. destruct Hw as [Hc Hw].
  simpl app. rewrite sub_go_no_match by (apply no_match_inside_word, Hp).
  rewrite IH by assumption. rewrite <- app_assoc. reflexivity.
Qed.

(** A word that follows a dot is passed over. *)
Lemma sub_go_after_dot w prev s :
  hd_error prev = Some dot ->
  forallb is_word w = true ->
  sub_go q var prev 0 (w ++ s) = w ++ sub_go q var (rev w ++ prev) 0 s.
Proof.
  intros Hp Hw. destruct w as [|c w]; [reflexivity|].
  simpl in Hw. apply andb_true_iff in Hw. destruct Hw as [Hc Hw].
  simpl app. rewrite sub_go_no_match by (apply no_match_after_dot, Hp).
  rewrite sub_go_word_run by assumption.
  rewrite <- app_assoc. reflexivity.
Qed.

(** A match on a whole word is a match of that very word. *)
Lemma match_is_whole_word prev w post :
  forallb is_word w = true -> word_end post = true ->
  matches_at q var prev (w ++ post) = true -> var = w.
Proof.
  intros Hw Hpost H. rewrite matches_at_dot_only in H.
  apply andb_true_iff in H. destruct H as [H Hend].
  apply andb_true_iff in H. destruct H as [_ Hpre].
  destruct (prefixb_split _ _ Hpre) as [r Hr].
  unfold word_boundary in Hend.
  rewrite (identifier_last_word var prev var_identifier) in Hend.
  rewrite Hr, skipn_app, Nat.sub_diag, skipn_all in Hend. simpl in Hend.
  apply negb_true_iff in Hend.
  symmetry in Hr. apply app_eq_app in Hr. destruct Hr as [l [[Hv Hp]|[Hv Hp]]].
  - (* [var] is [w] and then some more: [post] would start with a word *)
    destruct l as [|x l]; [rewrite app_nil_r in Hv; exact Hv|].
    exfalso. subst post. unfold word_end in Hpost. simpl in Hpost.
    pose proof (identifier_words _ var_identifier) as Hall.
    rewrite Hv, forallb_app in Hall. simpl in Hall.
    apply andb_true_iff in Hall. destruct Hall as [_ Hall].
    apply andb_true_iff in Hall. destruct Hall as [Hx _].
    rewrite Hx in Hpost. discriminate.
  - (* [w] goes on after [var]: no boundary at the end of the match *)
    destruct l as [|x l]; [rewrite app_nil_r in Hv; symmetry; exact Hv|].
    exfalso. subst r. simpl in Hend.
    rewrite Hv, forallb_app in Hw. simpl in Hw.
    apply andb_true_iff in Hw. destruct Hw as [_ Hw].
    apply andb_true_iff in Hw. destruct Hw as [Hx _].
    congruence.
Qed.

(** Another word than [var] is passed over. *)
Lemma sub_go_other_word w prev post :
  is_identifier w = true -> w <> var -> word_end post = true ->
  sub_go q var prev 0 (w ++ post)
  = w ++ sub_go q var (rev w ++ prev) 0 post.
Proof.
  intros Hw Hne Hpost.
  destruct (identifier_cons _ Hw) as (c & r & -> & Hc & Hr).
  simpl app. rewrite sub_go_no_match.
  - rewrite sub_go_word_run by assumption.
    rewrite <- app_assoc. reflexivity.
  - destruct (matches_at q var prev (c :: r ++ post)) eqn:E; [|reflexivity].
    exfalso. apply Hne. symmetry.
    apply (@match_is_whole_word prev (c :: r) post);
      [apply identifier_words, Hw|exact Hpost|exact E].
Qed.

(** The pattern matches a whole word [var] that no dot and no word
    character precedes. *)
Lemma matches_at_fires prev post :
  is_word_opt (hd_error prev) = false ->
  prefixb [dot] prev = false ->
  word_end post = true ->
  matches_at q var prev (var ++ post) = true.
Proof.
  intros Hp Hd Hpost. rewrite matches_at_dot_only, Hd, prefixb_app.
  rewrite skipn_app, Nat.sub_diag, skipn_all. simpl app.
  unfold word_boundary.
  rewrite (identifier_last_word var prev var_identifier), Hp.
  destruct (identifier_cons _ var_identifier) as (c & r & -> & Hc & _).
  simpl hd_error. cbn [is_word_opt]. rewrite Hc.
  unfold word_end in Hpost. apply negb_true_iff in Hpost. rewrite Hpost.
  reflexivity.
Qed.

Lemma sub_go_fires prev post :
  is_word_opt (hd_error prev) = false ->
  prefixb [dot] prev = false ->
  word_end post = true ->
  sub_go q var prev 0 (var ++ post)
  = (q ++ dot :: var) ++ sub_go q var (rev var ++ prev) 0 post.
Proof.
  intros Hp Hd Hpost.
  pose proof (matches_at_fires prev post Hp Hd Hpost) as Hm.
  destruct (identifier_cons _ var_identifier) as (c & r & E & _ & _).
  assert (var ++ post = c :: (r ++ post)) as Hs by (rewrite E; reflexivity).
  rewrite Hs. cbn [sub_go]. rewrite <- Hs, Hm.
  replace (length var - 1) with (length r) by (rewrite E; simpl; lia).
  rewrite sub_go_skip.
  replace (rev var) with (rev r ++ [c]) by (rewrite E; reflexivity).
  rewrite <- (app_assoc (rev r)). reflexivity.
Qed.

(** A character that is not a word character neither starts nor lies in a
    match: the pattern is tried before it as if the text ended there. *)
Lemma matches_at_nonword_cut c prev a b :
  is_word c = false ->
  matches_at q var prev (a ++ c :: b) = matches_at q var prev a.
Proof.
  intros Hc. destruct a as [|x a].
  - simpl app. rewrite no_match_nonword_start by (simpl; exact Hc).
    rewrite no_match_nonword_start by reflexivity. reflexivity.
  - rewrite !matches_at_dot_only.
    change (hd_error ((x :: a) ++ c :: b)) with (hd_error (x :: a)).
    rewrite (prefixb_barrier var c
               (words_absent c var Hc (identifier_words _ var_identifier))).
    destruct (prefixb var (x :: a)) eqn:E;
      [|rewrite !andb_false_r; reflexivity].
    destruct (prefixb_split _ _ E) as [r Hr].
    f_equal. rewrite Hr.
    rewrite <- app_assoc, !skipn_app, Nat.sub_diag, skipn_all.
    cbn [skipn app]. unfold word_boundary. f_equal.
    destruct r; cbn [app hd_error is_word_opt]; [exact Hc|reflexivity].
Qed.

Lemma sub_go_nonword_split c :
  is_word c = false ->
  forall a prev k b,
    k <= length a ->
    sub_go q var prev k (a ++ c :: b)
    = sub_go q var prev k a ++ c :: sub_go q var [c] 0 b.
Proof.
  intros Hc. induction a as [|x a IH]; intros prev k b Hk.
  - simpl in Hk. replace k with 0 by lia. simpl app.
    rewrite sub_go_no_match by
      (apply no_match_nonword_start; simpl; exact Hc).
    f_equal. apply sub_go_same_hd. reflexivity.
  - destruct k as [|k].
    + change ((x :: a) ++ c :: b) with (x :: (a ++ c :: b)).
      cbn [sub_go].
      change (x :: (a ++ c :: b)) with ((x :: a) ++ c :: b).
      rewrite (matches_at_nonword_cut c prev (x :: a) b Hc).
      destruct (matches_at q var prev (x :: a)) eqn:E.
      * rewrite IH; [rewrite !app_assoc; reflexivity|].
        rewrite matches_at_dot_only in E.
        apply andb_true_iff in E. destruct E as [E _].
        apply andb_true_iff in E. destruct E as [_ E].
        apply prefixb_length in E. simpl in E. lia.
      * rewrite IH by lia. reflexivity.
    + simpl. apply IH. simpl in Hk. lia.
Qed.

(** After a word has ended the scan does not depend on what came before. *)
Lemma sub_go_word_end prev post :
  word_end post = true ->
  sub_go q var prev 0 post = sub_var q var post.
Proof.
  intros H. unfold sub_var. destruct post as [|c b]; [reflexivity|].
  unfold word_end in H. simpl in H. apply negb_true_iff in H.
  rewrite !sub_go_no_match by (apply no_match_nonword_start; exact H).
  f_equal. apply sub_go_same_hd. reflexivity.
Qed.

(** *** One pass over a text cut at an occurrence *)

Lemma sub_var_nonword_split c a b :
  is_word c = false ->
  sub_var q var (a ++ c :: b)
  = sub_var q var a ++ c :: sub_go q var [c] 0 b.
Proof.
  intros Hc. unfold sub_var. apply sub_go_nonword_split; [exact Hc|lia].
Qed.

Lemma sub_var_snoc c a :
  is_word c = false -> sub_var q var (a ++ [c]) = sub_var q var a ++ [c].
Proof. intros Hc. rewrite sub_var_nonword_split by exact Hc. reflexivity. Qed.

Lemma word_start_cases pre :
  word_start pre = true ->
  pre = [] \/ exists a c, pre = a ++ [c] /\ is_word c = false.
Proof.
  intros H. destruct pre as [|x pre'] eqn:E using rev_ind; [left; reflexivity|].
  right. exists pre', x. split; [reflexivity|].
  unfold word_start in H. rewrite rev_app_distr in H. simpl in H.
  apply negb_true_iff in H. exact H.
Qed.

(** A word after a dot stays as it is. *)
Lemma sub_var_dot_qualified pre w post :
  forallb is_word w = true -> word_end post = true ->
  sub_var q var (pre ++ dot :: w ++ post)
  = sub_var q var pre ++ dot :: w ++ sub_var q var post.
Proof.
  intros Hw Hpost.
  rewrite sub_var_nonword_split by exact dot_not_word.
  rewrite sub_go_after_dot by (try reflexivity; exact Hw).
  rewrite sub_go_word_end by exact Hpost. reflexivity.
Qed.

(** Another word than [var] stays as it is. *)
Lemma sub_var_other_word pre w post :
  is_identifier w = true -> w <> var ->
  word_start pre = true -> word_end post = true ->
  sub_var q var (pre ++ w ++ post)
  = sub_var q var pre ++ w ++ sub_var q var post.
Proof.
  intros Hw Hne Hpre Hpost.
  destruct (word_start_cases _ Hpre) as [->|(a & c & -> & Hc)].
  - simpl app. unfold sub_var at 1.
    rewrite sub_go_other_word by assumption.
    rewrite sub_go_word_end by exact Hpost. reflexivity.
  - rewrite <- app_assoc. simpl app.
    rewrite sub_var_nonword_split by exact Hc.
    rewrite sub_go_other_word by assumption.
    rewrite sub_go_word_end by exact Hpost.
    rewrite sub_var_snoc by exact Hc.
    rewrite <- app_assoc. reflexivity.
Qed.

(** The word [var] with no dot before it gets the owner. *)
Lemma sub_var_unqualified pre post :
  word_start pre = true -> dot_qualified pre = false ->
  word_end post = true ->
  sub_var q var (pre ++ var ++ post)
  = sub_var q var pre ++ (q ++ dot :: var) ++ sub_var q var post.
Proof.
  intros Hpre Hdot Hpost.
  destruct (word_start_cases _ Hpre) as [->|(a & c & -> & Hc)].
  - simpl app. unfold sub_var at 1.
    rewrite sub_go_fires by (try reflexivity; exact Hpost).
    rewrite sub_go_word_end by exact Hpost. reflexivity.
  - unfold dot_qualified in Hdot. rewrite rev_app_distr in Hdot.
    rewrite <- app_assoc. simpl app.
    rewrite sub_var_nonword_split by exact Hc.
    rewrite sub_go_fires;
      [|simpl; exact Hc|exact Hdot|exact Hpost].
    rewrite sub_go_word_end by exact Hpost.
    rewrite sub_var_snoc by exact Hc.
    rewrite <- !app_assoc. reflexivity.
Qed.

(** What stands at the two sides of an occurrence is kept by a pass. *)
Lemma sub_var_keeps_left pre :
  word_start pre = true ->
  hd_error (rev (sub_var q var pre)) = hd_error (rev pre).
Proof.
  intros H. destruct (word_start_cases _ H) as [->|(a & c & -> & Hc)].
  - reflexivity.
  - rewrite sub_var_snoc by exact Hc. rewrite !rev_app_distr. reflexivity.
Qed.

Lemma sub_var_keeps_right post :
  word_end post = true ->
  hd_error (sub_var q var post) = hd_error post.
Proof.
  intros H. destruct post as [|c b]; [reflexivity|].
  unfold word_end in H. simpl in H. apply negb_true_iff in H.
  unfold sub_var.
  rewrite sub_go_no_match by (apply no_match_nonword_start; exact H).
  reflexivity.
Qed.

Lemma sub_var_word_start pre :
  word_start pre = true -> word_start (sub_var q var pre) = true.
Proof.
  intros H. unfold word_start. rewrite sub_var_keeps_left by exact H.
  exact H.
Qed.

Lemma sub_var_dot_qualified_left pre :
  word_start pre = true ->
  dot_qualified (sub_var q var pre) = dot_qualified pre.
Proof.
  intros H. unfold dot_qualified.
  rewrite !prefixb_dot_hd, sub_var_keeps_left by exact H. reflexivity.
Qed.

Lemma sub_var_word_end post :
  word_end post = true -> word_end (sub_var q var post) = true.
Proof.
  intros H. unfold word_end. rewrite sub_var_keeps_right by exact H.
  exact H.
Qed.

End OneVariable.

(** *** The loop over the variables *)

Lemma qualify_all_cons q v vars s :
  qualify_all q (v :: vars) s = qualify_all q vars (sub_var q v s).
Proof. reflexivity. Qed.

Lemma word_end_dot s : word_end (dot :: s) = true.
Proof. reflexivity. Qed.


(** An occurrence that has the owner already keeps it, once. *)
Lemma qualify_all_owner_kept q vars :
  identifiers vars -> is_identifier q = true -> ~ In q vars ->
  forall pre w post,
    forallb is_word w = true ->
    word_start pre = true -> word_end post = true ->
    qualify_all q vars (pre ++ q ++ dot :: w ++ post)
    = qualify_all q vars pre ++ q ++ dot :: w ++ qualify_all q vars post.
Proof.
  intros Hvars Hq. induction Hvars as [|v vars Hv Hvars IH];
    intros Hnotin pre w post Hw Hpre Hpost; [reflexivity|].
  rewrite !qualify_all_cons.
  assert (q <> v) as Hqv by (intros ->; apply Hnotin; left; reflexivity).
  rewrite (@sub_var_other_word q v Hv pre q (dot :: w ++ post) Hq Hqv Hpre
             (word_end_dot _)).
  pose proof (@sub_var_dot_qualified q v Hv [] w post Hw Hpost) as Hd.
  simpl app in Hd. rewrite Hd.
  apply IH; try assumption.
  - intros Hin. apply Hnotin. right. exact Hin.
  - apply sub_var_word_start; assumption.
  - apply sub_var_word_end; assumption.
Qed.

Lemma qualify_all_unqualified q vars :
  identifiers vars -> is_identifier q = true -> ~ In q vars ->
  forall var pre post,
    In var vars ->
    word_start pre = true -> dot_qualified pre = false ->
    word_end post = true ->
    qualify_all q vars (pre ++ var ++ post)
    = qualify_all q vars pre ++ (q ++ dot :: var) ++ qualify_all q vars post.
Proof.
  intros Hvars Hq. induction Hvars as [|v vars Hv Hvars IH];
    intros Hnotin var pre post Hin Hpre Hdot Hpost; [contradiction|].
  rewrite !qualify_all_cons.
  assert (~ In q vars) as Hnotin' by (intros H; apply Hnotin; right; exact H).
  destruct (list_eq_dec ascii_dec v var) as [->|Hne].
  - rewrite (@sub_var_unqualified q var Hv pre post Hpre Hdot Hpost).
    rewrite <- app_assoc. simpl app.
    rewrite (@qualify_all_owner_kept q vars Hvars Hq Hnotin');
      [rewrite <- app_assoc; reflexivity|..].
    + apply identifier_words, Hv.
    + apply sub_var_word_start; assumption.
    + apply sub_var_word_end; assumption.
  - destruct Hin as [Hin|Hin]; [contradiction|].
    assert (is_identifier var = true) as Hvar
      by (unfold identifiers in Hvars; rewrite Forall_forall in Hvars;
          apply Hvars, Hin).
    rewrite (@sub_var_other_word q v Hv pre var post Hvar
               (not_eq_sym Hne) Hpre Hpost).
    apply IH; try assumption.
    + apply sub_var_word_start; assumption.
    + rewrite sub_var_dot_qualified_left; assumption.
    + apply sub_var_word_end; assumption.
Qed.

(** *** Running the loop twice *)

Lemma word_run_split s : s = word_run s ++ after_run s.
Proof.
  induction s as [|c s IH]; [reflexivity|].
  simpl. destruct (is_word c); [simpl; f_equal; exact IH|reflexivity].
Qed.

Lemma word_run_words s : forallb is_word (word_run s) = true.
Proof.
  induction s as [|c s IH]; [reflexivity|].
  simpl. destruct (is_word c) eqn:E; [simpl; rewrite E; exact IH|reflexivity].
Qed.

Lemma after_run_word_end s : word_end (after_run s) = true.
Proof.
  induction s as [|c s IH]; [reflexivity|].
  simpl. destruct (is_word c) eqn:E; [exact IH|].
  unfold word_end. simpl. rewrite E. reflexivity.
Qed.

Lemma after_run_length s : length (after_run s) <= length s.
Proof.
  induction s as [|c s IH]; [simpl; lia|].
  simpl. destruct (is_word c); simpl; lia.
Qed.

(** A text is empty, or starts with a character that is not a word
    character, or starts with a whole word. *)
Lemma text_by_words (P : text -> Prop) :
  P [] ->
  (forall c s, is_word c = false -> P s -> P (c :: s)) ->
  (forall w s, is_identifier w = true -> word_end s = true ->
               P s -> P (w ++ s)) ->
  forall s, P s.
Proof.
  intros Hnil Hsep Hword s.
  remember (length s) as n eqn:Hn. revert s Hn.
  induction n as [n IH] using lt_wf_ind. intros s Hn.
  destruct s as [|c s]; [exact Hnil|].
  destruct (is_word c) eqn:E.
  - rewrite (word_run_split s).
    change (c :: word_run s ++ after_run s)
      with ((c :: word_run s) ++ after_run s).
    apply Hword.
    + simpl. rewrite E. apply word_run_words.
    + apply after_run_word_end.
    + apply (IH (length (after_run s))); [|reflexivity].
      pose proof (after_run_length s). simpl in Hn. lia.
  - apply Hsep; [exact E|].
    apply (IH (length s)); [simpl in Hn; lia|reflexivity].
Qed.

Section Passes.
Variables q var : text.
Hypothesis var_identifier : is_identifier var = true.

Lemma sub_go_separator prev c s :
  is_word c = false ->
  sub_go q var prev 0 (c :: s) = c :: sub_go q var [c] 0 s.
Proof.
  intros Hc.
  rewrite sub_go_no_match by
    (apply no_match_nonword_start; [exact var_identifier|exact Hc]).
  f_equal. apply sub_go_same_hd; [exact var_identifier|reflexivity].
Qed.

(** What a pass does with a whole word. *)
Lemma sub_go_word prev w s :
  is_identifier w = true -> word_end s = true ->
  sub_go q var prev 0 (w ++ s)
  = (if fires var prev w then q ++ dot :: w else w)
    ++ sub_go q var (rev w ++ prev) 0 s.
Proof.
  intros Hw Hs. unfold fires.
  destruct (list_eq_dec ascii_dec w var) as [->|Hne].
  - destruct (is_word_opt (hd_error prev)) eqn:Ep.
    + simpl. apply sub_go_word_run;
        [exact var_identifier|exact Ep|apply identifier_words, Hw].
    + destruct (prefixb [dot] prev) eqn:Ed.
      * simpl. apply sub_go_after_dot;
          [exact var_identifier| |apply identifier_words, Hw].
        rewrite prefixb_dot_hd in Ed.
        destruct (hd_error prev) as [x|]; [|discriminate].
        apply Ascii.eqb_eq in Ed. subst x. reflexivity.
      * simpl. apply sub_go_fires; assumption.
  - apply sub_go_other_word; assumption.
Qed.

Lemma sub_go_keeps_word_end prev s :
  word_end s = true -> word_end (sub_go q var prev 0 s) = true.
Proof.
  intros H. rewrite sub_go_word_end by assumption.
  apply sub_var_word_end; assumption.
Qed.

(** A pass only adds text. *)
Lemma sub_go_length :
  forall s prev k, length s <= length (sub_go q var prev k s) + k.
Proof.
  induction s as [|c s IH]; intros prev k; [simpl; lia|].
  cbn [sub_go]. destruct k as [|k].
  - destruct (matches_at q var prev (c :: s)) eqn:E.
    + rewrite matches_at_dot_only in E.
      apply andb_true_iff in E. destruct E as [E _].
      apply andb_true_iff in E. destruct E as [_ E].
      apply prefixb_length in E. simpl in E.
      specialize (IH (c :: prev) (length var - 1)).
      rewrite !length_app. simpl length. lia.
    + specialize (IH (c :: prev) 0). simpl length. lia.
  - specialize (IH (c :: prev) k). simpl length. lia.
Qed.

Hypothesis q_identifier : is_identifier q = true.
Hypothesis q_other : q <> var.

(** The owner, the dot and the word, once written, are passed over. *)
Lemma sub_go_qualified prev w s :
  forallb is_word w = true ->
  sub_go q var prev 0 (q ++ dot :: w ++ s)
  = q ++ dot :: w ++ sub_go q var (rev w ++ [dot]) 0 s.
Proof.
  intros Hw.
  assert (fires var prev q = false) as Hf.
  { unfold fires. destruct (list_eq_dec ascii_dec q var);
      [contradiction|reflexivity]. }
  rewrite sub_go_word by (try assumption; reflexivity).
  rewrite Hf. f_equal.
  rewrite sub_go_separator by exact dot_not_word. f_equal.
  apply sub_go_after_dot; [exact var_identifier|reflexivity|exact Hw].
Qed.

Lemma rev_identifier_hd w prev prev' :
  is_identifier w = true ->
  hd_error (rev w ++ prev) = hd_error (rev w ++ prev').
Proof.
  intros Hw.
  assert (rev w <> []) as Hr.
  { intros E. apply (f_equal (@rev ascii)) in E.
    rewrite rev_involutive in E. exact (identifier_not_nil Hw E). }
  rewrite !(hd_error_app_l _ Hr). reflexivity.
Qed.

(** A second pass for the same name changes nothing. *)
Lemma sub_go_idempotent :
  forall s prev,
    sub_go q var prev 0 (sub_go q var prev 0 s) = sub_go q var prev 0 s.
Proof.
  apply (text_by_words
           (fun s => forall prev,
                sub_go q var prev 0 (sub_go q var prev 0 s)
                = sub_go q var prev 0 s)).
  - reflexivity.
  - intros c s Hc IH prev.
    rewrite !sub_go_separator by exact Hc. rewrite IH. reflexivity.
  - intros w s Hw Hs IH prev.
    rewrite (sub_go_word prev w s Hw Hs).
    destruct (fires var prev w) eqn:Ef.
    + rewrite <- app_assoc. simpl app.
      rewrite sub_go_qualified by (apply identifier_words, Hw).
      do 3 f_equal.
      rewrite (sub_go_same_hd q var var_identifier _
                 (rev w ++ [dot]) (rev w ++ prev) 0
                 (rev_identifier_hd w [dot] prev Hw)).
      apply IH.
    + rewrite (sub_go_word prev w _ Hw
                 (sub_go_keeps_word_end _ s Hs)).
      rewrite Ef, IH. reflexivity.
Qed.

End Passes.

Lemma sub_var_idempotent q var s :
  is_identifier var = true -> is_identifier q = true -> q <> var ->
  settled q var (sub_var q var s).
Proof.
  intros Hv Hq Hne. unfold settled, sub_var.
  apply sub_go_idempotent; assumption.
Qed.

(** A pass for another name does not undo what a pass has settled. *)
Lemma sub_go_keeps_settled q v v' :
  is_identifier v = true -> is_identifier v' = true ->
  is_identifier q = true -> q <> v ->
  forall s prev,
    sub_go q v prev 0 s = s ->
    sub_go q v prev 0 (sub_go q v' prev 0 s) = sub_go q v' prev 0 s.
Proof.
  intros Hv Hv' Hq Hqv.
  apply (text_by_words
           (fun s => forall prev,
                sub_go q v prev 0 s = s ->
                sub_go q v prev 0 (sub_go q v' prev 0 s)
                = sub_go q v' prev 0 s)).
  - reflexivity.
  - intros c s Hc IH prev H.
    rewrite (@sub_go_separator q v Hv prev c s Hc) in H.
    injection H as H.
    rewrite (@sub_go_separator q v' Hv' prev c s Hc).
    rewrite (@sub_go_separator q v Hv prev c _ Hc).
    rewrite (IH [c] H). reflexivity.
  - intros w s Hw Hs IH prev H.
    rewrite (@sub_go_word q v Hv prev w s Hw Hs) in H.
    destruct (fires v prev w) eqn:Ef.
    + exfalso. apply (f_equal (@length ascii)) in H.
      rewrite !length_app in H. simpl length in H.
      pose proof (@sub_go_length q v s (rev w ++ prev) 0).
      lia.
    + apply app_inv_head in H.
      rewrite (@sub_go_word q v' Hv' prev w s Hw Hs).
      destruct (fires v' prev w) eqn:Ef'.
      * rewrite <- app_assoc. simpl app.
        rewrite (@sub_go_qualified q v Hv Hq Hqv prev w _
                   (identifier_words _ Hw)).
        do 3 f_equal.
        rewrite (@sub_go_same_hd q v Hv _
                   (rev w ++ [dot]) (rev w ++ prev) 0
                   (rev_identifier_hd w [dot] prev Hw)).
        apply IH, H.
      * rewrite (@sub_go_word q v Hv prev w _ Hw
                   (@sub_go_keeps_word_end q v' Hv' _ s Hs)).
        rewrite Ef, (IH _ H). reflexivity.
Qed.

Lemma sub_var_keeps_settled q v v' s :
  is_identifier v = true -> is_identifier v' = true ->
  is_identifier q = true -> q <> v ->
  settled q v s -> settled q v (sub_var q v' s).
Proof.
  intros Hv Hv' Hq Hqv H. unfold settled, sub_var in *.
  apply sub_go_keeps_settled; assumption.
Qed.

Lemma qualify_all_keeps_settled q v vars :
  identifiers vars -> is_identifier v = true ->
  is_identifier q = true -> q <> v ->
  forall s, settled q v s -> settled q v (qualify_all q vars s).
Proof.
  intros Hvars Hv Hq Hqv.
  induction Hvars as [|v' vars Hv' Hvars IH]; intros s H; [exact H|].
  rewrite qualify_all_cons. apply IH.
  apply sub_var_keeps_settled; assumption.
Qed.

Lemma qualify_all_settles q vars :
  identifiers vars -> is_identifier q = true -> ~ In q vars ->
  forall s v, In v vars -> settled q v (qualify_all q vars s).
Proof.
  intros Hvars Hq.
  induction Hvars as [|v0 vars Hv0 Hvars IH]; intros Hnotin s v Hin;
    [contradiction|].
  rewrite qualify_all_cons.
  assert (~ In q vars) as Hnotin' by (intros H; apply Hnotin; right; exact H).
  destruct Hin as [->|Hin].
  - assert (q <> v) as Hqv by (intros ->; apply Hnotin; left; reflexivity).
    apply qualify_all_keeps_settled; try assumption.
    apply sub_var_idempotent; assumption.
  - apply IH; assumption.
Qed.

Lemma qualify_all_fixed q vars s :
  (forall v, In v vars -> settled q v s) -> qualify_all q vars s = s.
Proof.
  induction vars as [|v vars IH]; intros H; [reflexivity|].
  rewrite qualify_all_cons.
  assert (sub_var q v s = s) as -> by (apply H; left; reflexivity).
  apply IH. intros v' Hv'. apply H. right. exact Hv'.
Qed.

(** The loop over the variables is idempotent: the look-behind keeps a
    second run from qualifying a name again. *)
Lemma qualify_all_idempotent q vars s :
  identifiers vars -> is_identifier q = true -> ~ In q vars ->
  qualify_all q vars (qualify_all q vars s) = qualify_all q vars s.
Proof.
  intros Hvars Hq Hnotin. apply qualify_all_fixed.
  intros v Hv. apply qualify_all_settles; assumption.
Qed.

Lemma moved_vars_identifiers : identifiers moved_vars.
Proof. unfold identifiers, moved_vars. simpl. repeat constructor. Qed.

Lemma qualifier_not_moved : ~ In qualifier moved_vars.
Proof.
  unfold moved_vars. simpl. intros H.
  repeat (destruct H as [H|H]; [discriminate H|]). exact H.
Qed.

(** **** C7 (as the script has it).  In the loop over the table, every
    whole-word occurrence of a name of the table that no dot immediately
    precedes is replaced by the owner, a dot and the name; the text before
    and the text after are rewritten on their own.  The table must hold
    identifiers and not the owner's name.  On the line
    [count = count + 1;] with the owner [state] this gives
    [state.count = state.count + 1;], and the same line when applied
    again. *)
Theorem unqualified_occurrence_gets_owner
        (q : text) (vars : list text) (var pre post : text) :
  identifiers vars -> is_identifier q = true -> ~ In q vars ->
  In var vars ->
  word_start pre = true -> dot_qualified pre = false ->
  word_end post = true ->
  qualify_all q vars (pre ++ var ++ post)
  = qualify_all q vars pre ++ (q ++ dot :: var) ++ qualify_all q vars post
  /\ rewrite (lit "state") [lit "count"] (lit "count = count + 1;")
     = lit "state.count = state.count + 1;"
  /\ rewrite (lit "state") [lit "count"]
       (lit "state.count = state.count + 1;")
     = lit "state.count = state.count + 1;".
Proof.
  intros Hvars Hq Hnotin Hin Hpre Hdot Hpost. split.
  - apply qualify_all_unqualified; assumption.
  - split; vm_compute; reflexivity.
Qed.

Lemma unqualified_occurrence_gets_owner_witness :
  qualify_all qualifier moved_vars
    (lit "x = " ++ lit "currentTool" ++ lit ";")
  = qualify_all qualifier moved_vars (lit "x = ")
    ++ (qualifier ++ dot :: lit "currentTool")
    ++ qualify_all qualifier moved_vars (lit ";").
Proof.
  apply (@unqualified_occurrence_gets_owner qualifier moved_vars
           (lit "currentTool") (lit "x = ") (lit ";")).
  - exact moved_vars_identifiers.
  - reflexivity.
  - exact qualifier_not_moved.
  - left. reflexivity.
  - reflexivity.
  - reflexivity.
  - reflexivity.
Defined.

(** C7, as stated, does not hold of the script: the occurrence is a whole
    word and the owner does not precede it, yet it is left as it is. *)
Lemma occurrence_after_other_owner_is_not_replaced :
  let var := lit "currentTool" in
  let pre := lit "other." in
  let post := lit " = 1;" in
  In var moved_vars
  /\ word_start pre = true /\ word_end post = true
  /\ owner_qualified qualifier pre = false
  /\ update_refs (pre ++ var ++ post) = pre ++ var ++ post
  /\ update_refs (pre ++ var ++ post)
     <> pre ++ (qualifier ++ dot :: var) ++ post.
Proof.
  split; [left; reflexivity|].
  vm_compute. repeat split. discriminate.
Qed.







(** **** C2 (the script at a failing input).  The scope substitution puts
    its prefix in front of its own output: a second run of the script
    changes the text again.  The loop over the variables, which has the
    look-behind, is idempotent on every text. *)
Theorem scope_substitution_is_applied_again :
  update_refs (lit "Tool::Paint") = lit "CanvasPanel::Tool::Paint"
  /\ update_refs (update_refs (lit "Tool::Paint"))
     = lit "CanvasPanel::CanvasPanel::Tool::Paint"
  /\ update_refs (update_refs (lit "Tool::Paint"))
     <> update_refs (lit "Tool::Paint")
  /\ (forall s,
        qualify_all qualifier moved_vars (qualify_all qualifier moved_vars s)
        = qualify_all qualifier moved_vars s).
Proof.
  split; [vm_compute; reflexivity|].
  split; [vm_compute; reflexivity|].
  split; [vm_compute; discriminate|].
  intros s. apply qualify_all_idempotent.
  - exact moved_vars_identifiers.
  - reflexivity.
  - exact qualifier_not_moved.
Qed.

End RewriteFacts.

(* ================================================================= *)
(** ** Subsequences *)

Module SubseqFacts.

Section Subseq.
Variable A : Type.
Implicit Types a b c : list A.

Lemma subseq_refl a : subseq a a.
Proof.
  induction a; [apply subseq_nil|apply subseq_keep; assumption].
Qed.

Lemma subseq_nil_l b : subseq [] b.
Proof.
  induction b; [apply subseq_nil|apply subseq_skip; assumption].
Qed.

Lemma subseq_app a a' b b' :
  subseq a a' -> subseq b b' -> subseq (a ++ b) (a' ++ b').
Proof.
  intros Ha Hb. induction Ha; simpl.
  - exact Hb.
  - apply subseq_skip. assumption.
  - apply subseq_keep. assumption.
Qed.

Lemma subseq_app_r a b : subseq b (a ++ b).
Proof.
  change b with ([] ++ b) at 1.
  apply subseq_app; [apply subseq_nil_l|apply subseq_refl].
Qed.

Lemma subseq_trans a b c : subseq a b -> subseq b c -> subseq a c.
Proof.
  intros Hab Hbc. revert a Hab.
  induction Hbc as [|x b c Hbc IH|x b c Hbc IH]; intros a Hab.
  - exact Hab.
  - apply subseq_skip. apply IH, Hab.
  - inversion Hab; subst.
    + apply subseq_skip. apply IH. assumption.
    + apply subseq_keep. apply IH. assumption.
Qed.

Lemma subseq_length a b : subseq a b -> length a <= length b.
Proof. induction 1; simpl; lia. Qed.

Lemma subseq_cut a n m : n <= m -> subseq (firstn n a ++ skipn m a) a.
Proof.
  intros H.
  rewrite <- (firstn_skipn n a) at 3.
  apply subseq_app; [apply subseq_refl|].
  replace m with ((m - n) + n) by lia.
  rewrite <- skipn_skipn.
  rewrite <- (firstn_skipn (m - n) (skipn n a)) at 2.
  apply subseq_app_r.
Qed.

End Subseq.

End SubseqFacts.

(* ================================================================= *)
(** ** More about clean_ui.py *)

Module CleanUiMore.
Import CleanUi CleanUiFacts ScanFacts CleanUiRun SubseqFacts.

Lemma del_slice_subseq (A : Type) (l : list A) s e : subseq (del_slice l s e) l.
Proof.
  unfold del_slice. destruct (s <=? e) eqn:E.
  - apply Nat.leb_le in E. apply subseq_cut, E.
  - apply subseq_refl.
Qed.

Lemma remove_loop_subseq (A : Type) spans :
  forall doc : list A, subseq (remove_loop spans doc) doc.
Proof.
  induction spans as [|s spans IH]; intros doc.
  - apply subseq_refl.
  - rewrite remove_loop_cons.
    eapply subseq_trans; [apply IH|apply del_slice_subseq].
Qed.

(** **** X1.  Whatever sections are scheduled, overlapping or not, the
    removal only leaves lines out: the written document is the original
    with some lines missing, nothing added, altered or moved, and it is
    never longer. *)
Theorem clean_ui_only_removes_lines :
  (forall (A : Type) (spans : list span) (doc : list A),
     subseq (excise spans doc) doc)
  /\ (forall lines,
        subseq (clean_ui lines) lines
        /\ length (clean_ui lines) <= length lines).
Proof.
  split.
  - intros A spans doc. apply remove_loop_subseq.
  - intros lines.
    assert (subseq (clean_ui lines) lines) as H
      by apply remove_loop_subseq.
    split; [exact H|apply subseq_length, H].
Qed.

(** *** The sort makes the order of the search blocks irrelevant *)

Lemma span_leb_antisym a b :
  span_leb a b = true -> span_leb b a = true -> a = b.
Proof.
  rewrite !span_leb_spec. destruct a as [a1 a2], b as [b1 b2]. simpl.
  intros H1 H2. f_equal; lia.
Qed.

Lemma sorted_perm_unique l :
  forall l',
    StronglySorted desc l -> StronglySorted desc l' ->
    Permutation l l' -> l = l'.
Proof.
  induction l as [|x r IH]; intros l' Hs Hs' Hp.
  - apply Permutation_nil in Hp. symmetry. exact Hp.
  - destruct l' as [|y r'];
      [apply Permutation_sym, Permutation_nil in Hp; discriminate|].
    inversion Hs as [|? ? Hr Hx]; subst.
    inversion Hs' as [|? ? Hr' Hy]; subst.
    assert (x = y) as ->.
    { assert (In y (x :: r)) as Hy_in
        by (eapply Permutation_in; [symmetry; exact Hp|left; reflexivity]).
      assert (In x (y :: r')) as Hx_in
        by (eapply Permutation_in; [exact Hp|left; reflexivity]).
      destruct Hy_in as [E|Hy_in]; [exact E|].
      destruct Hx_in as [E|Hx_in]; [symmetry; exact E|].
      rewrite Forall_forall in Hx, Hy.
      apply span_leb_antisym; [apply Hy, Hx_in|apply Hx, Hy_in]. }
    f_equal. apply IH; try assumption.
    eapply Permutation_cons_inv. exact Hp.
Qed.

(** **** X2.  The sections can be found in any order: two lists holding the
    same sections in a different order are sorted to the same list, and the
    same document is written. *)
Theorem excise_order_irrelevant (A : Type) (doc : list A)
        (spans spans' : list span) :
  Permutation spans spans' ->
  sort_reverse spans = sort_reverse spans'
  /\ excise spans doc = excise spans' doc.
Proof.
  intros Hp.
  assert (sort_reverse spans = sort_reverse spans') as E.
  { apply sorted_perm_unique; try apply sort_reverse_sorted.
    eapply perm_trans; [apply sort_reverse_perm|].
    eapply perm_trans; [exact Hp|].
    symmetry. apply sort_reverse_perm. }
  split; [exact E|]. unfold excise. rewrite E. reflexivity.
Qed.

Lemma excise_order_irrelevant_witness :
  let doc := [0; 1; 2; 3; 4; 5; 6; 7; 8; 9] in
  sort_reverse [(1, 3); (7, 9); (4, 5)] = sort_reverse [(7, 9); (4, 5); (1, 3)]
  /\ excise [(1, 3); (7, 9); (4, 5)] doc
     = excise [(7, 9); (4, 5); (1, 3)] doc.
Proof.
  intros doc. apply excise_order_irrelevant.
  apply Permutation_cons_app with (l1 := [(7, 9); (4, 5)]) (l2 := []).
  apply Permutation_refl.
Defined.

(** *** The sections that are scheduled *)

Lemma scan_block_window lines i window e :
  scan_block lines i window = Some e -> e <= i + window.
Proof.
  rewrite scan_block_first_closing. unfold first_closing.
  destruct (find _ _) as [j|] eqn:E; [|discriminate].
  intros H. injection H as <-.
  apply find_seq_first in E. lia.
Qed.

Lemma flat_map_spans_length (B : Type) (f : B -> option span) l :
  length (flat_map (fun t => spans_of (f t)) l) <= length l.
Proof.
  induction l as [|t l IH]; simpl; [lia|].
  rewrite length_app. destruct (f t); simpl; lia.
Qed.

(** **** X3.  At most four sections are scheduled, one for each target that
    is located.  Each starts at the first line that holds the target's
    signature, is not empty, lies inside the document and is no longer
    than the target's scan window. *)
Theorem scheduled_sections_bounded (lines : list text) (s : span) :
  In s (remove_sections lines) ->
  length (remove_sections lines) <= 4
  /\ exists t,
       In t targets
       /\ first_line_with (fst t) lines 0 = Some (fst s)
       /\ scan_block lines (fst s) (snd t) = Some (snd s)
       /\ fst s < snd s /\ snd s <= length lines
       /\ snd s - fst s <= snd t.
Proof.
  intros Hs. unfold remove_sections in *. rewrite collect_located in *.
  split.
  - apply (flat_map_spans_length (fun t => located t lines) targets).
  - apply in_flat_map in Hs. destruct Hs as (t & Ht & Hs).
    exists t. split; [exact Ht|].
    unfold located in Hs.
    destruct (first_line_with (fst t) lines 0) as [i|] eqn:Ei;
      [|contradiction].
    destruct (scan_block lines i (snd t)) as [e|] eqn:Ee; [|contradiction].
    destruct Hs as [<-|[]]. simpl fst; simpl snd.
    pose proof (scan_block_range _ _ _ Ee) as [H1 H2].
    pose proof (scan_block_window _ _ _ Ee) as H3.
    repeat split; try assumption; try reflexivity. lia.
Qed.

Lemma scheduled_sections_bounded_witness :
  let lines :=
    map lit [ "int a;"; "void UI::UpdateCursor() {"; "  x();"; "}";
              "int b;" ]%string in
  length (remove_sections lines) <= 4
  /\ exists t,
       In t targets
       /\ first_line_with (fst t) lines 0 = Some 1
       /\ scan_block lines 1 (snd t) = Some 4
       /\ 1 < 4 /\ 4 <= length lines /\ 4 - 1 <= snd t.
Proof.
  intros lines.
  apply (@scheduled_sections_bounded lines (1, 4)).
  vm_compute. left. reflexivity.
Defined.

(** *** The scan only reads up to the end of the block *)

Lemma scan_app a :
  forall b j bc fo e,
    scan a j bc fo = Some e -> scan (a ++ b) j bc fo = Some e.
Proof.
  induction a as [|l a IH]; intros b j bc fo e H; [discriminate|].
  change ((l :: a) ++ b) with (l :: (a ++ b)).
  rewrite scan_cons in *. cbv zeta in *.
  destruct ((fo || (0 <? count_char open_brace l)) && (bc + net l =? 0)%Z);
    [exact H|].
  apply IH, H.
Qed.

Lemma scan_firstn w :
  forall j bc fo e,
    scan w j bc fo = Some e ->
    j < e /\ e <= j + length w
    /\ scan (firstn (e - j) w) j bc fo = Some e.
Proof.
  induction w as [|l w IH]; intros j bc fo e H; [discriminate|].
  rewrite scan_cons in H. cbv zeta in H.
  destruct ((fo || (0 <? count_char open_brace l)) && (bc + net l =? 0)%Z)
    eqn:E.
  - injection H as <-. simpl length. split; [lia|]. split; [lia|].
    replace (j + 1 - j) with 1 by lia. simpl firstn.
    rewrite scan_cons. cbv zeta. rewrite E. reflexivity.
  - destruct (IH _ _ _ _ H) as (H1 & H2 & H3).
    simpl length. split; [lia|]. split; [lia|].
    replace (e - j) with (S (e - S j)) by lia. simpl firstn.
    rewrite scan_cons. cbv zeta. rewrite E. exact H3.
Qed.

(** **** X4.  The end found for a block depends only on the lines up to
    that end: in every document that has the same first [e] lines, and with
    every window that reaches line [e], the scan from line [i] ends at the
    same [e], whatever follows. *)
Theorem scan_block_local (lines lines' : list text)
        (i window window' e : nat) :
  scan_block lines i window = Some e ->
  firstn e lines' = firstn e lines ->
  e <= i + window' ->
  scan_block lines' i window' = Some e.
Proof.
  intros Hscan Hsame Hwin'.
  pose proof (scan_block_range _ _ _ Hscan) as [Hie Hlen].
  pose proof (scan_block_window _ _ _ Hscan) as Hwin.
  assert (e <= length lines') as Hlen'.
  { apply (f_equal (@length text)) in Hsame.
    rewrite !length_firstn in Hsame. lia. }
  unfold scan_block in *.
  destruct (scan_firstn _ _ _ _ Hscan) as (_ & _ & Hcut).
  assert (firstn (e - i) (window_of lines' i window')
          = firstn (e - i) (window_of lines i window)) as Hw.
  { unfold window_of. rewrite !firstn_firstn.
    rewrite !Nat.min_l by lia.
    rewrite !firstn_skipn_comm.
    replace (i + (e - i)) with e by lia. rewrite Hsame. reflexivity. }
  rewrite <- (firstn_skipn (e - i) (window_of lines' i window')).
  apply scan_app. rewrite Hw. exact Hcut.
Qed.

Lemma scan_block_local_witness :
  let lines := map lit ["f() {"; "  g();"; "}"; "tail"]%string in
  let lines' := map lit ["f() {"; "  g();"; "}"; "other {"; "more"]%string in
  scan_block lines' 0 2000 = Some 3.
Proof.
  intros lines lines'.
  apply (@scan_block_local lines lines' 0 100 2000 3);
    [reflexivity|reflexivity|lia].
Defined.

(** *** Running the script again *)

Lemma retained_from_in (A : Type) spans (x : A) :
  forall doc off,
    In x (retained_from off spans doc) ->
    exists k, nth_error doc k = Some x /\ covered spans (off + k) = false.
Proof.
  induction doc as [|y doc IH]; intros off H; simpl in H; [contradiction|].
  destruct (covered spans off) eqn:E.
  - destruct (IH _ H) as (k & Hk & Hc). exists (S k). split; [exact Hk|].
    replace (off + S k) with (S off + k) by lia. exact Hc.
  - destruct H as [->|H].
    + exists 0. split; [reflexivity|]. rewrite Nat.add_0_r. exact E.
    + destruct (IH _ H) as (k & Hk & Hc). exists (S k). split; [exact Hk|].
      replace (off + S k) with (S off + k) by lia. exact Hc.
Qed.

Lemma first_line_with_none sig lines :
  forall off,
    (forall l, In l lines -> contains sig l = false) ->
    first_line_with sig lines off = None.
Proof.
  induction lines as [|l lines IH]; intros off H; [reflexivity|].
  simpl. rewrite (H l) by (left; reflexivity).
  apply IH. intros l' Hl'. apply H. right. exact Hl'.
Qed.

(** **** X5.  When the scheduled sections do not overlap and cover every
    line that holds a target signature, a second run finds nothing: it
    writes back the document the first run left. *)
Theorem clean_ui_second_run (lines : list text) :
  pairwise_disjoint (remove_sections lines) ->
  (forall k l t,
     In t targets -> nth_error lines k = Some l ->
     contains (fst t) l = true ->
     covered (remove_sections lines) k = true) ->
  remove_sections (clean_ui lines) = []
  /\ clean_ui (clean_ui lines) = clean_ui lines.
Proof.
  intros Hdis Hcov.
  assert (remove_sections (clean_ui lines) = []) as Hnone.
  { unfold remove_sections at 1. rewrite collect_located.
    apply nothing_located. intros t Ht. unfold located.
    rewrite first_line_with_none; [reflexivity|].
    intros l Hl. unfold clean_ui in Hl.
    rewrite excise_retained in Hl;
      [|apply collect_well_formed|exact Hdis].
    apply retained_from_in in Hl. destruct Hl as (k & Hk & Hc).
    destruct (contains (fst t) l) eqn:E; [|reflexivity].
    change (0 + k) with k in Hc.
    rewrite (Hcov k l t Ht Hk E) in Hc. discriminate. }
  split; [exact Hnone|].
  unfold clean_ui at 1. rewrite Hnone. reflexivity.
Qed.

Lemma clean_ui_second_run_witness :
  let lines :=
    map lit [ "int a;"; "void UI::UpdateCursor() {"; "  x();"; "}";
              "int b;" ]%string in
  remove_sections (clean_ui lines) = []
  /\ clean_ui (clean_ui lines) = clean_ui lines.
Proof.
  intros lines. apply clean_ui_second_run.
  - vm_compute. repeat constructor.
  - intros k l t Ht Hk Hc.
    destruct k as [|[|[|[|[|k]]]]]; simpl in Hk;
      try (injection Hk as <-); try reflexivity;
      try (destruct k; discriminate Hk);
      destruct Ht as [<-|[<-|[<-|[<-|[]]]]]; vm_compute in Hc;
      discriminate Hc.
Defined.

End CleanUiMore.

(* ================================================================= *)
(** ** More about extract_canvas.py *)

Module ExtractMore.
Import ExtractCanvas TextFacts AdaptFacts.

Lemma slice_length_clamped (A : Type) (l : list A) a b :
  length (slice l a b) = Nat.min (b - a) (length l - a).
Proof. unfold slice. rewrite length_firstn, length_skipn. reflexivity. Qed.

(** **** X6.  The script never fails on a short file: the three slices are
    clamped to the lines there are.  The output has the 34 lines of static
    text and the lines of the slices; for a file of 3783 lines or more this
    makes 1879 lines, for a file of at most 61 lines only the 34. *)
Theorem extract_canvas_length (ui_lines : list text) :
  length (extract_canvas ui_lines)
  = 34 + Nat.min 36 (length ui_lines - 61)
       + Nat.min 60 (length ui_lines - 1973)
       + Nat.min 1749 (length ui_lines - 2034)
  /\ (3783 <= length ui_lines -> length (extract_canvas ui_lines) = 1879)
  /\ (length ui_lines <= 61 -> length (extract_canvas ui_lines) = 34).
Proof.
  assert (length (extract_canvas ui_lines)
          = 34 + Nat.min 36 (length ui_lines - 61)
               + Nat.min 60 (length ui_lines - 1973)
               + Nat.min 1749 (length ui_lines - 2034)) as H.
  { rewrite extract_canvas_layout.
    rewrite !length_app, !length_map, !slice_length_clamped.
    change (length header) with 20.
    change (length panel_head) with 11.
    change (length footer) with 2.
    change (length [[newline]]) with 1.
    unfold helper_start, helper_end, detect_start, detect_end,
           render_start, render_end.
    replace (97 - 61) with 36 by reflexivity.
    replace (2033 - 1973) with 60 by reflexivity.
    replace (3783 - 2034) with 1749 by reflexivity.
    lia. }
  split; [exact H|]. split; intros Hlen; rewrite H; lia.
Qed.

Lemma extract_canvas_length_witness :
  length (extract_canvas (repeat [newline] 70)) = 34 + 9.
Proof.
  destruct (extract_canvas_length (repeat [newline] 70)) as (H & _ & _).
  rewrite H, repeat_length. reflexivity.
Defined.

(** *** Lines that no rule matches *)

(** **** X7.  A line that holds none of the texts a loop looks for is copied
    as it is: no [static std::vector] in the helper loop, no
    [bool UI::DetectEdgeHover] in the second loop, none of the three rule
    texts and no [ShowToast(] in the render loop. *)
Theorem unmatched_line_is_copied (line : text) :
  (contains (lit "static std::vector") line = false ->
   adapt_helper line = line)
  /\ (contains (lit "bool UI::DetectEdgeHover") line = false ->
      adapt_detect line = line)
  /\ ((forall r, In r render_rules -> contains (fst r) line = false) ->
      contains defer_marker line = false ->
      adapt_render line = line).
Proof.
  split; [|split].
  - intros H. apply replace_absent; [discriminate|exact H].
  - intros H. apply replace_absent; [discriminate|exact H].
  - intros Hrules Hmark. unfold adapt_render. cbv zeta.
    assert (apply_rules render_rules line = line) as ->.
    { pose proof (Hrules (lit "void UI::RenderCanvasPanel",
                          lit "void CanvasPanel::Render")
                    (or_introl eq_refl)) as H1.
      pose proof (Hrules (lit "showPropertiesPanel = !showPropertiesPanel",
                          lit "*showPropertiesPanel = !(*showPropertiesPanel)")
                    (or_intror (or_introl eq_refl))) as H2.
      pose proof (Hrules (lit "m_layoutInitialized = false",
                          lit "*layoutInitialized = false")
                    (or_intror (or_intror (or_introl eq_refl)))) as H3.
      cbn [fst] in H1, H2, H3.
      unfold apply_rules, render_rules. cbn [fold_left fst snd].
      rewrite (@replace_absent (lit "void UI::RenderCanvasPanel"));
        [|discriminate|exact H1].
      rewrite (@replace_absent
                 (lit "showPropertiesPanel = !showPropertiesPanel"));
        [|discriminate|exact H2].
      rewrite (@replace_absent (lit "m_layoutInitialized = false"));
        [|discriminate|exact H3].
      reflexivity. }
    rewrite Hmark. reflexivity.
Qed.

Lemma unmatched_line_is_copied_witness :
  let line := lit "    int tile = GetTile(x, y);" ++ [newline] in
  adapt_helper line = line /\ adapt_detect line = line
  /\ adapt_render line = line.
Proof.
  intros line.
  destruct (unmatched_line_is_copied line) as (H1 & H2 & H3).
  split; [apply H1; reflexivity|].
  split; [apply H2; reflexivity|].
  apply H3; [|reflexivity].
  intros r [<-|[<-|[<-|[]]]]; reflexivity.
Defined.

(** *** The end of line and the deferred call *)

Lemma lstrip_split s :
  exists ws, s = ws ++ lstrip s /\ forallb is_space ws = true.
Proof.
  induction s as [|c s IH].
  - exists []. split; reflexivity.
  - simpl. destruct (is_space c) eqn:E.
    + destruct IH as (ws & Hs & Hws). exists (c :: ws). split.
      * simpl. f_equal. exact Hs.
      * simpl. rewrite E. exact Hws.
    + exists []. split; reflexivity.
Qed.

(** Blanks in front of a text do not hide a marker that starts with
    another character. *)
Lemma contains_after_blanks c m ws :
  is_space c = false -> forallb is_space ws = true ->
  forall r, contains (c :: m) (ws ++ r) = true -> contains (c :: m) r = true.
Proof.
  intros Hc. induction ws as [|w ws IH]; intros Hws r H; [exact H|].
  simpl in Hws. apply andb_true_iff in Hws. destruct Hws as [Hw Hws].
  change ((w :: ws) ++ r) with (w :: (ws ++ r)) in H.
  simpl contains in H. apply orb_true_iff in H. destruct H as [H|H].
  - apply andb_true_iff in H. destruct H as [H _].
    apply Ascii.eqb_eq in H. subst w. congruence.
  - apply IH; assumption.
Qed.

Lemma marker_after_lstrip s :
  contains defer_marker s = true -> contains defer_marker (lstrip s) = true.
Proof.
  intros H. destruct (lstrip_split s) as (ws & Hs & Hws).
  rewrite Hs in H.
  apply (@contains_after_blanks "S"%char (lit "howToast(") ws);
    [reflexivity|exact Hws|exact H].
Qed.

(** **** X8.  In the output of the render loop a line that holds
    [ShowToast(] always starts with the comment [// TODO: Re-enable toast: ],
    so no live call is written; and a line that held the call still holds
    its text after the adaptation, so the call is not lost. *)
Theorem deferred_call_is_commented_and_kept (line : text) :
  (contains defer_marker (adapt_render line) = true ->
   prefixb defer_prefix (adapt_render line) = true)
  /\ (contains defer_marker line = true ->
      contains defer_marker (adapt_render line) = true).
Proof.
  unfold adapt_render. cbv zeta. split.
  - destruct (contains defer_marker (apply_rules render_rules line)) eqn:E.
    + intros _. apply prefixb_app.
    + intros H. congruence.
  - intros H. rewrite (marker_survives_rules _ H).
    apply contains_app_r, marker_after_lstrip, marker_survives_rules, H.
Qed.

Lemma deferred_call_is_commented_and_kept_witness :
  let line := lit "        ShowToast(msg);" ++ [newline] in
  prefixb defer_prefix (adapt_render line) = true
  /\ contains defer_marker (adapt_render line) = true.
Proof.
  intros line.
  destruct (deferred_call_is_commented_and_kept line) as (H1 & H2).
  split; [apply H1; reflexivity|apply H2; reflexivity].
Defined.

Lemma rule_keeps_newline old new body :
  old <> [] -> absent newline old = true ->
  replace old new (body ++ [newline]) = replace old new body ++ [newline].
Proof.
  intros Hne Ha. rewrite (@replace_barrier old new Hne newline) by exact Ha.
  rewrite replace_nil by exact Hne. reflexivity.
Qed.

Lemma apply_rules_keep_newline body :
  apply_rules render_rules (body ++ [newline])
  = apply_rules render_rules body ++ [newline].
Proof.
  unfold apply_rules, render_rules. cbn [fold_left fst snd].
  rewrite !rule_keeps_newline; try discriminate; reflexivity.
Qed.

Lemma suffix_keeps_last (A : Type) (x : A) (ws r body : list A) :
  ws ++ r = body ++ [x] -> r <> [] -> exists r', r = r' ++ [x].
Proof.
  intros H Hr. destruct (exists_last Hr) as (r' & y & ->).
  rewrite app_assoc in H. apply app_inj_tail in H. destruct H as [_ ->].
  exists r'. reflexivity.
Qed.

(** **** X9.  The adaptation keeps the end of line: a line that ends with a
    newline comes out of each of the three loops ending with a newline, so
    the lines written do not run into one another. *)
Theorem adapted_line_keeps_newline (body : text) :
  adapt_helper (body ++ [newline]) = adapt_helper body ++ [newline]
  /\ adapt_detect (body ++ [newline]) = adapt_detect body ++ [newline]
  /\ exists out, adapt_render (body ++ [newline]) = out ++ [newline].
Proof.
  split; [apply rule_keeps_newline; [discriminate|reflexivity]|].
  split; [apply rule_keeps_newline; [discriminate|reflexivity]|].
  unfold adapt_render. cbv zeta. rewrite apply_rules_keep_newline.
  destruct (contains defer_marker
              (apply_rules render_rules body ++ [newline])) eqn:E.
  - destruct (lstrip_split (apply_rules render_rules body ++ [newline]))
      as (ws & Hs & Hws).
    destruct (@suffix_keeps_last _ newline ws
                (lstrip (apply_rules render_rules body ++ [newline]))
                (apply_rules render_rules body)) as (r' & Hr').
    + symmetry. exact Hs.
    + intros Hnil. apply marker_after_lstrip in E.
      rewrite Hnil in E. discriminate.
    + exists (defer_prefix ++ r'). rewrite Hr', app_assoc. reflexivity.
  - exists (apply_rules render_rules body). reflexivity.
Qed.

End ExtractMore.

(* ================================================================= *)
(** ** More about update_refs.py *)

Module RewriteMore.
Import UpdateRefs TextFacts RewriteFacts SubseqFacts ExtractMore.

#[local] Arguments Ascii.eqb : simpl never.
#[local] Arguments is_word : simpl never.

(** **** X10.  For every table of identifiers that does not hold the
    owner's name, the loop over the table is idempotent: on its own output
    it changes nothing. *)
Theorem variable_loop_is_idempotent (q : text) (vars : list text) (s : text) :
  identifiers vars -> is_identifier q = true -> ~ In q vars ->
  qualify_all q vars (qualify_all q vars s) = qualify_all q vars s.
Proof. intros Hvars Hq Hnotin. apply qualify_all_idempotent; assumption. Qed.

Lemma variable_loop_is_idempotent_witness :
  let s := lit "count = count + other.count; counter++;" in
  qualify_all (lit "state") [lit "count"]
    (qualify_all (lit "state") [lit "count"] s)
  = qualify_all (lit "state") [lit "count"] s.
Proof.
  intros s. apply variable_loop_is_idempotent.
  - repeat constructor.
  - reflexivity.
  - intros [H|[]]. discriminate H.
Defined.

(** *** The rewrite only adds text *)

Lemma matches_at_prefix q var prev s :
  matches_at q var prev s = true -> prefixb var s = true.
Proof.
  unfold matches_at. intros H.
  apply andb_true_iff in H. destruct H as [H _].
  apply andb_true_iff in H. destruct H as [_ H]. exact H.
Qed.

Lemma prefix_then_skip (var : text) c s :
  var <> [] -> prefixb var (c :: s) = true ->
  c :: s = var ++ skipn (length var - 1) s.
Proof.
  intros Hne H. destruct (prefixb_split _ _ H) as [r Hr].
  destruct var as [|v0 vr]; [contradiction|].
  simpl in Hr. injection Hr as -> ->.
  replace (length (v0 :: vr) - 1) with (length vr) by (simpl; lia).
  rewrite skipn_app, skipn_all, Nat.sub_diag. reflexivity.
Qed.

Lemma sub_go_subseq q var :
  var <> [] ->
  forall s prev k, subseq (skipn k s) (sub_go q var prev k s).
Proof.
  intros Hne. induction s as [|c s IH]; intros prev k.
  - rewrite skipn_nil. apply subseq_nil.
  - cbn [sub_go]. destruct k as [|k]; [|apply IH].
    cbn [skipn].
    destruct (matches_at q var prev (c :: s)) eqn:E.
    + rewrite (prefix_then_skip c s Hne (matches_at_prefix _ _ _ _ E)).
      replace (q ++ dot :: var) with ((q ++ [dot]) ++ var)
        by (rewrite <- app_assoc; reflexivity).
      rewrite <- app_assoc.
      eapply subseq_trans; [|apply subseq_app_r].
      apply subseq_app; [apply subseq_refl|apply IH].
    + apply subseq_keep. apply (IH (c :: prev) 0).
Qed.

Lemma replace_go_subseq old new :
  old <> [] -> subseq old new ->
  forall s k, subseq (skipn k s) (replace_go old new k s).
Proof.
  intros Hne Hsub. induction s as [|c s IH]; intros k.
  - rewrite skipn_nil. apply subseq_nil.
  - cbn [replace_go]. destruct k as [|k]; [|apply IH].
    cbn [skipn].
    destruct (prefixb old (c :: s)) eqn:E.
    + rewrite (prefix_then_skip c s Hne E).
      apply subseq_app; [exact Hsub|apply IH].
    + apply subseq_keep. apply (IH 0).
Qed.

Lemma qualify_all_subseq q vars :
  identifiers vars ->
  forall s, subseq s (qualify_all q vars s).
Proof.
  induction 1 as [|v vars Hv Hvars IH]; intros s; [apply subseq_refl|].
  rewrite qualify_all_cons.
  eapply subseq_trans; [|apply IH].
  apply (@sub_go_subseq q v (identifier_not_nil Hv) s [] 0).
Qed.

(** **** X11.  The rewrite deletes nothing and moves nothing: the content
    read is the content written with some characters left out, so every
    character of the file survives in its order, and the file never gets
    shorter. *)
Theorem rewrite_only_inserts (q : text) (vars : list text) (content : text) :
  identifiers vars ->
  subseq content (rewrite q vars content)
  /\ length content <= length (rewrite q vars content).
Proof.
  intros Hvars.
  assert (subseq content (rewrite q vars content)) as H.
  { unfold rewrite.
    eapply subseq_trans; [|apply qualify_all_subseq, Hvars].
    rewrite replace_not_empty by discriminate.
    assert (subseq scope_old scope_new) as Hs.
    { change scope_new with (lit "CanvasPanel::" ++ scope_old).
      apply subseq_app_r. }
    assert (scope_old <> []) as Hne by discriminate.
    exact (@replace_go_subseq scope_old scope_new Hne Hs content 0). }
  split; [exact H|apply subseq_length, H].
Qed.

Lemma rewrite_only_inserts_witness :
  let content := lit "Tool::Paint; currentTool = x.lastTool;" in
  subseq content (update_refs content)
  /\ length content <= length (update_refs content).
Proof.
  intros content.
  apply (@rewrite_only_inserts qualifier moved_vars content).
  exact moved_vars_identifiers.
Defined.

(** *** A file that mentions none of the names *)

Lemma sub_go_absent q var :
  forall s prev, contains var s = false -> sub_go q var prev 0 s = s.
Proof.
  induction s as [|c s IH]; intros prev H; [reflexivity|].
  apply contains_cons_false in H. destruct H as [Hp Hc].
  cbn [sub_go].
  destruct (matches_at q var prev (c :: s)) eqn:E.
  - apply matches_at_prefix in E. congruence.
  - rewrite IH by exact Hc. reflexivity.
Qed.

Lemma qualify_all_absent q vars :
  forall s,
    (forall v, In v vars -> contains v s = false) ->
    qualify_all q vars s = s.
Proof.
  induction vars as [|v vars IH]; intros s H; [reflexivity|].
  rewrite qualify_all_cons. unfold sub_var.
  rewrite sub_go_absent by (apply H; left; reflexivity).
  apply IH. intros v' Hv'. apply H. right. exact Hv'.
Qed.

(** **** X12.  A content that holds neither [Tool::] nor any name of the
    table, not even inside a longer word, is written back as it is. *)
Theorem rewrite_without_names (q : text) (vars : list text) (content : text) :
  contains scope_old content = false ->
  (forall v, In v vars -> contains v content = false) ->
  rewrite q vars content = content.
Proof.
  intros Hscope Hvars. unfold rewrite.
  rewrite replace_absent; [|discriminate|exact Hscope].
  apply qualify_all_absent, Hvars.
Qed.

Lemma rewrite_without_names_witness :
  let content := lit "int x = tool.size();" in
  rewrite (lit "state") [lit "count"; lit "total"] content = content.
Proof.
  intros content. apply rewrite_without_names.
  - reflexivity.
  - intros v [<-|[<-|[]]]; reflexivity.
Defined.

(** *** Words that are not in the table *)

(** **** X13.  A whole word that is not a name of the table is left as it
    is by the loop, also when a name of the table is a part of it; the text
    before it and the text after it are rewritten on their own. *)
Theorem other_word_is_kept (q : text) (vars : list text) (pre w post : text) :
  identifiers vars ->
  is_identifier w = true -> ~ In w vars ->
  word_start pre = true -> word_end post = true ->
  qualify_all q vars (pre ++ w ++ post)
  = qualify_all q vars pre ++ w ++ qualify_all q vars post.
Proof.
  intros Hvars Hw. revert pre post.
  induction Hvars as [|v vars Hv Hvars IH];
    intros pre post Hnotin Hpre Hpost; [reflexivity|].
  rewrite !qualify_all_cons.
  assert (w <> v) as Hne by (intros ->; apply Hnotin; left; reflexivity).
  rewrite (@sub_var_other_word q v Hv pre w post Hw Hne Hpre Hpost).
  apply IH.
  - intros Hin. apply Hnotin. right. exact Hin.
  - apply sub_var_word_start; assumption.
  - apply sub_var_word_end; assumption.
Qed.

Lemma other_word_is_kept_witness :
  qualify_all qualifier moved_vars
    (lit "x = " ++ lit "currentToolIndex" ++ lit " + 1;")
  = qualify_all qualifier moved_vars (lit "x = ")
    ++ lit "currentToolIndex"
    ++ qualify_all qualifier moved_vars (lit " + 1;").
Proof.
  apply other_word_is_kept.
  - exact moved_vars_identifiers.
  - reflexivity.
  - unfold moved_vars. simpl. intros H.
    repeat (destruct H as [H|H]; [discriminate H|]). exact H.
  - reflexivity.
  - reflexivity.
Defined.

End RewriteMore.
